(** * Float compression codecs: half precision, range quantizer, microfloat

    A shallow embedding of [src/main.cpp].  A [float] is carried around as its
    IEEE-754 binary32 bit pattern, an unsigned 32-bit integer held in [Z]; the
    [union Bits] of the source is the single bit pattern with its three views
    ([f], [si], [ui]).  Signed 32-bit values are [Z] in [-2^31, 2^31) and every
    arithmetic result is wrapped explicitly.  The two floating-point products
    of the half-precision codec are computed with the IEEE-754 specification
    of the standard library ([SpecFloat]) instantiated at binary32. *)

From Stdlib Require Import ZArith Bool List Lia String.
From Stdlib Require Import Floats.SpecFloat.
Import ListNotations.
Local Open Scope Z_scope.

(** ** 32-bit machine integers *)

Module I32.

(** [uint32_t] of an integer: reduction modulo 2^32. *)
Definition u32 (z : Z) : Z := z mod 2 ^ 32.

(** [int32_t] of an integer: the representative in [-2^31, 2^31). *)
Definition i32 (z : Z) : Z := (z + 2 ^ 31) mod 2 ^ 32 - 2 ^ 31.

(** [uint16_t] of an integer. *)
Definition u16 (z : Z) : Z := z mod 2 ^ 16.

(** The [int] value of a C++ [bool]. *)
Definition b2z (b : bool) : Z := if b then 1 else 0.

(** Wrapping signed arithmetic. *)
Definition add (a b : Z) : Z := i32 (a + b).
Definition sub (a b : Z) : Z := i32 (a - b).
Definition neg (a : Z) : Z := i32 (- a).

(** [a >> n] on [uint32_t] (logical) and on [int32_t] (arithmetic). *)
Definition shr_u (a n : Z) : Z := Z.shiftr (u32 a) n.
Definition shr_s (a n : Z) : Z := Z.shiftr (i32 a) n.

(** [a << n], on [uint32_t] and on [int32_t]. *)
Definition shl_u (a n : Z) : Z := u32 (Z.shiftl a n).
Definition shl_s (a n : Z) : Z := i32 (Z.shiftl a n).

(** The branchless selection idiom of the source,
    [x ^ ((a ^ x) & -(cond))]: [a] when [cond], else [x]. *)
Definition select (x a : Z) (cond : Z) : Z :=
  Z.lxor x (Z.land (Z.lxor a x) (neg cond)).

End I32.

Import I32.

(** ** IEEE-754 views of a bit pattern *)

Module IEEE.

(** Decoding a bit pattern of a format with [ew] exponent bits and [mw]
    stored significand bits. *)
Definition sign_of (ew mw : Z) (b : Z) : bool := Z.testbit b (ew + mw).
Definition sign_field (ew mw : Z) (b : Z) : Z := (b / 2 ^ (ew + mw)) mod 2.
Definition expo_of (ew mw : Z) (b : Z) : Z := (b / 2 ^ mw) mod 2 ^ ew.
Definition mant_of (mw : Z) (b : Z) : Z := b mod 2 ^ mw.

Definition decode (ew mw : Z) (b : Z) : spec_float :=
  let s := sign_of ew mw b in
  let e := expo_of ew mw b in
  let m := mant_of mw b in
  let bias := 2 ^ (ew - 1) - 1 in
  if e =? 0 then
    match m with
    | Zpos p => S754_finite s p (1 - bias - mw)
    | _ => S754_zero s
    end
  else if e =? 2 ^ ew - 1 then
    (if m =? 0 then S754_infinity s else S754_nan)
  else
    match m + 2 ^ mw with
    | Zpos p => S754_finite s p (e - bias - mw)
    | _ => S754_nan
    end.

(** binary32: 8 exponent bits, 23 stored significand bits. *)
Definition f32_of_bits : Z -> spec_float := decode 8 23.
(** binary16: 5 exponent bits, 10 stored significand bits. *)
Definition f16_of_bits : Z -> spec_float := decode 5 10.

(** The bit pattern of a binary32 value (the quiet NaN for [S754_nan],
    whose payload [spec_float] does not record). *)
Definition bits_of_f32 (f : spec_float) : Z :=
  match f with
  | S754_zero s => if s then 2 ^ 31 else 0
  | S754_infinity s => (if s then 2 ^ 31 else 0) + 0x7F800000
  | S754_nan => 0x7FC00000
  | S754_finite s m e =>
      (if s then 2 ^ 31 else 0) +
      (if Zpos m <? 2 ^ 23 then Zpos m
       else (e + 150) * 2 ^ 23 + (Zpos m - 2 ^ 23))
  end.

(** binary32 arithmetic. *)
Definition fmul : spec_float -> spec_float -> spec_float := SFmul 24 128.

(** [float(int32_t)]: conversion with rounding to nearest even. *)
Definition f32_of_int (z : Z) : spec_float := binary_normalize 24 128 z 0 false.

(** [static_cast<int32_t>(float)]: truncation toward zero.  A value that
    does not fit (and NaN) has no defined result in C++; the model returns
    the value the x86 conversion instruction produces, [INT_MIN]. *)
Definition int_of_f32 (f : spec_float) : Z :=
  match f with
  | S754_zero _ => 0
  | S754_finite s m e =>
      let a := if 0 <=? e then Zpos m * 2 ^ e else Zpos m / 2 ^ (- e) in
      let r := if s then - a else a in
      if (- 2 ^ 31 <=? r) && (r <? 2 ^ 31) then r else - 2 ^ 31
  | _ => - 2 ^ 31
  end.

Definition is_nan (f : spec_float) : bool :=
  match f with S754_nan => true | _ => false end.

Definition is_finite (f : spec_float) : bool :=
  match f with S754_zero _ | S754_finite _ _ _ => true | _ => false end.

(** The real number a finite float denotes, in units of 2^-149 (the
    smallest positive binary32 number): an integer for every finite
    binary32 and binary16 value. *)
Definition scaled_value (f : spec_float) : option Z :=
  match f with
  | S754_zero _ => Some 0
  | S754_finite s m e =>
      if - 149 <=? e
      then Some ((if s then -1 else 1) * (Zpos m * 2 ^ (e + 149)))
      else None
  | _ => None
  end.

(** Comparisons of the source language on floats. *)
Definition flt (a b : spec_float) : bool := SFltb a b.
Definition fle (a b : spec_float) : bool := SFleb a b.

(** Bit-level readings of a binary32 pattern: the magnitude bits, the NaN
    test and the integer key whose order is the order of the floats. *)
Definition mag32 (b : Z) : Z := b mod 2 ^ 31.
Definition nan32 (b : Z) : bool := 0x7F800000 <? mag32 b.
Definition key32 (b : Z) : Z := if b <? 2 ^ 31 then b else 2 ^ 31 - b.

(** The value of a finite binary32 magnitude in units of 2^-149. *)
Definition ulps32 (g : Z) : Z :=
  if g <? 2 ^ 23 then g else (g mod 2 ^ 23 + 2 ^ 23) * 2 ^ (g / 2 ^ 23 - 1).

End IEEE.

Import IEEE.

(** ** The half-precision codec *)

Module Float16Compressor.

Definition shift : Z := 13.
Definition shift_sign : Z := 16.

Definition n_inf : Z := i32 0x7F800000.
Definition n_max : Z := i32 0x477FE000.
Definition n_min : Z := i32 0x38800000.
Definition n_sign : Z := i32 0x80000000.

Definition c_inf : Z := shr_s n_inf shift.
Definition n_nan : Z := shl_s (c_inf + 1) shift.
Definition c_max : Z := shr_s n_max shift.
Definition c_min : Z := shr_s n_min shift.
Definition c_sign : Z := shr_s n_sign shift_sign.

Definition n_mul : Z := i32 0x52000000.
Definition c_mul : Z := i32 0x33800000.

Definition c_sub : Z := 0x003FF.
Definition c_nor : Z := 0x00400.

Definition d_max : Z := c_inf - c_max - 1.
Definition d_min : Z := c_min - c_sub - 1.

(** [compress]: [value] is the bit pattern of the argument. *)
Definition compress (value : Z) : Z :=
  let v := i32 value in
  let sign := u32 (Z.land v n_sign) in
  let v := i32 (Z.lxor (u32 v) sign) in
  let sign := shr_u sign shift_sign in
  let s := n_mul in
  let s := int_of_f32 (fmul (f32_of_bits (u32 s)) (f32_of_bits (u32 v))) in
  let v := select v s (b2z (n_min >? v)) in
  let v := select v n_inf (Z.land (b2z (n_inf >? v)) (b2z (v >? n_max))) in
  let v := select v n_nan (Z.land (b2z (n_nan >? v)) (b2z (v >? n_inf))) in
  let v := i32 (shr_u v shift) in
  let v := select v (sub v d_max) (b2z (v >? c_max)) in
  let v := select v (sub v d_min) (b2z (v >? c_sub)) in
  u16 (Z.lor (u32 v) sign).

(** [decompress]: the result is the bit pattern of the returned float. *)
Definition decompress (value : Z) : Z :=
  let v := i32 (u16 value) in
  let sign := Z.land v c_sign in
  let v := Z.lxor v sign in
  let sign := shl_s sign shift_sign in
  let v := select v (add v d_min) (b2z (v >? c_sub)) in
  let v := select v (add v d_max) (b2z (v >? c_max)) in
  let s := c_mul in
  let s := i32 (bits_of_f32 (fmul (f32_of_bits (u32 s)) (f32_of_int v))) in
  let mask := neg (b2z (c_nor >? v)) in
  let v := shl_s v shift in
  let v := Z.lxor v (Z.land (Z.lxor s v) mask) in
  let v := Z.lor v sign in
  u32 v.

End Float16Compressor.

(** A finite binary32 value is exactly representable in half precision when
    some finite binary16 pattern denotes the same real number. *)
Definition half_representable (x : Z) : Prop :=
  exists h, 0 <= h < 2 ^ 16 /\
            is_finite (f16_of_bits h) = true /\
            scaled_value (f16_of_bits h) = scaled_value (f32_of_bits x).

(** Exhaustive checking over a range of patterns. *)
Fixpoint forall_from (n : nat) (z : Z) (p : Z -> bool) : bool :=
  match n with
  | O => true
  | S k => p z && forall_from k (z + 1) p
  end.

Definition option_Z_eqb (a b : option Z) : bool :=
  match a, b with
  | Some x, Some y => x =? y
  | None, None => true
  | _, _ => false
  end.

(** What decoding a half pattern [h] yields: the pattern it encodes back to,
    its value, its sign bit and whether it is finite; and what these should
    be for a finite [h] that is decoded exactly. *)
Definition half_decoding_facts (h : Z) : Z * option Z * Z * bool :=
  (Float16Compressor.compress (Float16Compressor.decompress h),
   scaled_value (f32_of_bits (Float16Compressor.decompress h)),
   Float16Compressor.decompress h / 2 ^ 31,
   mag32 (Float16Compressor.decompress h) <? 0x7F800000).

Definition half_expected_facts (h : Z) : Z * option Z * Z * bool :=
  (h, scaled_value (f16_of_bits h), h / 2 ^ 15, true).

Definition facts_eqb (a b : Z * option Z * Z * bool) : bool :=
  let '(a1, a2, a3, a4) := a in
  let '(b1, b2, b3, b4) := b in
  (a1 =? b1) && option_Z_eqb a2 b2 && (a3 =? b3) && Bool.eqb a4 b4.

(** Decoding a finite half pattern [h] is exact: the result encodes back to
    [h] and is a finite binary32 of the same value and sign. *)
Definition decodes_exactly (h : Z) : Prop :=
  Float16Compressor.compress (Float16Compressor.decompress h) = h /\
  scaled_value (f32_of_bits (Float16Compressor.decompress h))
    = scaled_value (f16_of_bits h) /\
  Float16Compressor.decompress h / 2 ^ 31 = h / 2 ^ 15 /\
  mag32 (Float16Compressor.decompress h) < 0x7F800000.

(** ** The range quantizer *)

Module FloatCompressor.

Definition signF : Z := i32 0x80000000.
Definition absF : Z := Z.lnot signF.

(** The data members of the class. *)
Record t : Type := Build {
  negatives : bool;
  lossless : bool;
  f_max : Z;
  f_min : Z;
  f_eps : Z;
  c_max : Z;
  c_zero : Z;
  p_delta : Z;
  n_delta : Z;
  shift : Z
}.

(** The constructor; [min], [epsilon] and [max] are bit patterns.  The
    shifts are the mathematical ones of [Z]; the source shifts a
    [uint32_t] by [shift], which C++ defines for [0 <= shift < 32] only. *)
Definition make (min epsilon max : Z) (precision : Z) : t :=
  let shift := i32 (23 - precision) in
  let f_min := i32 min in
  let f_eps := i32 epsilon in
  let f_max := i32 max in
  let negatives := f_min <? 0 in
  let lossless := shift =? 0 in
  let '(nepsU, pepsU, c_max, c_zero) :=
    if lossless then
      (f_eps, Z.lxor f_eps signF, Z.lxor f_max signF, signF)
    else
      (i32 (shr_u (Z.lxor f_eps signF) shift),
       i32 (shr_u f_eps shift),
       i32 (shr_u f_max shift),
       0) in
  let p_delta := sub (sub pepsU c_zero) 1 in
  let n_delta := sub (sub nepsU c_max) 1 in
  Build negatives lossless f_max f_min f_eps c_max c_zero p_delta n_delta shift.

(** What a construction can produce.  The constructor of the source has
    no [throw] and no other exit: it always yields the object. *)
Inductive construction : Type :=
| Constructed (c : t)
| Rejected (message : string).

Definition construct (min epsilon max : Z) (precision : Z) : construction :=
  Constructed (make min epsilon max precision).

Definition clamp (c : t) (value : Z) : Z :=
  let v := i32 value in
  let max := f_max c in
  let max :=
    if negatives c
    then Z.lxor max (Z.land (Z.lxor (f_min c) (f_max c)) (neg (b2z (0 >? v))))
    else max in
  let v := select v max (b2z (v >? max)) in
  let v := Z.land v (neg (b2z (f_eps c <=? Z.land v absF))) in
  u32 v.

Definition compress (c : t) (value : Z) : Z :=
  let v := i32 (clamp c value) in
  let v := if lossless c then Z.lxor v signF else i32 (shr_u v (shift c)) in
  let v :=
    if negatives c
    then select v (sub v (n_delta c)) (b2z (v >? c_max c))
    else v in
  let v := select v (sub v (p_delta c)) (b2z (v >? c_zero c)) in
  let v := if lossless c then Z.lxor v signF else v in
  u32 v.

Definition decompress (c : t) (value : Z) : Z :=
  let v := i32 value in
  let v := if lossless c then Z.lxor v signF else v in
  let v := select v (add v (p_delta c)) (b2z (v >? c_zero c)) in
  let v :=
    if negatives c
    then select v (add v (n_delta c)) (b2z (v >? c_max c))
    else v in
  let v := if lossless c then Z.lxor v signF else shl_s v (shift c) in
  u32 v.

(** The legal values of the constructor's comment:
    [min <= 0 < epsilon < max] as floats and [0 <= precision <= 23]. *)
Definition valid_config (min epsilon max precision : Z) : Prop :=
  fle (f32_of_bits min) (f32_of_bits 0) = true /\
  flt (f32_of_bits 0) (f32_of_bits epsilon) = true /\
  flt (f32_of_bits epsilon) (f32_of_bits max) = true /\
  0 <= precision <= 23.

End FloatCompressor.

(** ** Closed forms used to state the properties of the range quantizer *)

Module QuantizerForms.

Import FloatCompressor.

(** The fields [clamp] reads, as the constructor sets them. *)
Definition clamp_fields (min epsilon max : Z) (c : t) : Prop :=
  negatives c = (2 ^ 31 <=? min) /\ f_max c = max /\
  f_min c = i32 min /\ f_eps c = epsilon.

(** The bit patterns [clamp] can return: zero, a positive value in
    [epsilon, max], a negative value in [min, -epsilon] when negatives
    are representable, and any negative pattern of magnitude at least
    [epsilon] when they are not. *)
Definition clamped (min epsilon max : Z) (y : Z) : Prop :=
  y = 0
  \/ epsilon <= y <= max
  \/ (2 ^ 31 <= min /\ 2 ^ 31 + epsilon <= y <= min)
  \/ (min = 0 /\ 2 ^ 31 + epsilon <= y < 2 ^ 32).

(** The code of a clamped pattern [y], with [P = 2 ^ shift]. *)
Definition code_of (P : Z) (min epsilon max : Z) (y : Z) : Z :=
  if y <? 2 ^ 31 then
    (if y / P =? 0 then 0 else y / P - epsilon / P + 1)
  else if 2 ^ 31 <=? min then
    (y - 2 ^ 31) / P + max / P - 2 * (epsilon / P) + 2
  else
    y / P - epsilon / P + 1.

End QuantizerForms.

(** ** The 18-bit microfloat: [sign 1] [exponent 5] [significand 12] *)

Definition compress18 (r : Z) : Z :=
  let n := u32 r in
  let t := shr_u (Z.land n 0x7ff800) 11 in
  let t := Z.lor t (shl_u (u32 (shr_u (Z.land n 0x7f800000) 23 - 0x70)) 12) in
  let t := Z.lor t (shr_u (Z.land n 0x80000000) 14) in
  t.

Definition decompress18 (n : Z) : Z :=
  let n := u32 n in
  let t := shl_u (Z.land n 0xfff) 11 in
  let t := Z.lor t (shl_u (u32 (shr_u (Z.land n 0x1f000) 12 + 0x70)) 23) in
  let t := Z.lor t (shl_u (Z.land n 0x20000) 14) in
  t.

(** ** Closed form of the magnitude field of a half-precision code *)

(** The low fifteen bits of the code of a binary32 magnitude [g]: below
    the smallest normal half the magnitude in units of 2^-24, rounded
    toward zero; then the rebased pattern; then infinity and the NaNs. *)
Definition half_magnitude (g : Z) : Z :=
  if g <? 0x38800000 then ulps32 g / 2 ^ 125
  else if g <=? 0x477FE000 then g / 2 ^ 13 - 0x1C000
  else if g <=? 0x7F800000 then 0x7C00
  else if g <? 0x7F802000 then 0x7C01
  else g / 2 ^ 13 - 0x38000.

(** ** The demonstration program *)

(** The body of [main] as a function of its local [g]: the four values it
    prints, floats as bit patterns.  The constructor arguments are the
    patterns of [-65504], [6.103515625e-05] and [65504]. *)
Definition main_body (g : Z) : Z * Z * Z * Z :=
  let c := FloatCompressor.make 0xC77FE000 0x38800000 0x477FE000 12 in
  let comp := FloatCompressor.compress c g in
  let uncomp := FloatCompressor.decompress c comp in
  (g, comp, uncomp, decompress18 (compress18 g)).

(** [main], with [g = -724.99f]. *)
Definition main : Z * Z * Z * Z := main_body 0xC4353F5C.

(** * Properties *)

(** ** Machine integers *)

Ltac zlia := Z.div_mod_to_equations; lia.

(** Name the outermost [let] of the left-hand side, one source statement
    at a time. *)
Ltac let_step x :=
  lazymatch goal with
  | |- (let _ := ?a in _) = _ =>
      set (x := a);
      lazymatch goal with
      | |- (let y := ?a' in @?b y) = ?r => change (b a' = r); cbv beta
      end
  end.

(** Replace a named intermediate value by a simpler expression. *)
Tactic Notation "settle" ident(x) "as" constr(t) "by" tactic(tac) :=
  let E := fresh "E" in
  assert (E : x = t) by (subst x; tac);
  clearbody x; subst x.

Section MachineFacts.

Lemma u32_range z : 0 <= u32 z < 2 ^ 32.
Proof. unfold u32. zlia. Qed.

Lemma i32_range z : - 2 ^ 31 <= i32 z < 2 ^ 31.
Proof. unfold i32. zlia. Qed.

Lemma u32_small z : 0 <= z < 2 ^ 32 -> u32 z = z.
Proof. unfold u32. intros. zlia. Qed.

Lemma i32_small z : - 2 ^ 31 <= z < 2 ^ 31 -> i32 z = z.
Proof. unfold i32. intros. zlia. Qed.

Lemma u32_i32 z : u32 (i32 z) = u32 z.
Proof. unfold u32, i32. zlia. Qed.

Lemma neg_b2z b : neg (b2z b) = if b then -1 else 0.
Proof. destruct b; reflexivity. Qed.

Lemma select_b2z x a b : select x a (b2z b) = if b then a else x.
Proof.
  unfold select. rewrite neg_b2z. destruct b.
  - rewrite Z.land_m1_r, Z.lxor_comm, Z.lxor_assoc, Z.lxor_nilpotent.
    apply Z.lxor_0_r.
  - rewrite Z.land_0_r. apply Z.lxor_0_r.
Qed.

Lemma land_b2z p q : Z.land (b2z p) (b2z q) = b2z (p && q).
Proof. destruct p, q; reflexivity. Qed.

(** A value below [2^n] shares no bit with a multiple of [2^n]. *)
Lemma land_low_high a k n :
  0 <= n -> 0 <= a < 2 ^ n -> Z.land a (k * 2 ^ n) = 0.
Proof.
  intros Hn Ha. apply Z.bits_inj'. intros i Hi.
  rewrite Z.land_spec, Z.bits_0.
  destruct (Z.lt_ge_cases i n) as [Hlt | Hge].
  - rewrite Z.mul_pow2_bits_low by assumption. apply andb_false_r.
  - replace a with (a mod 2 ^ n) by (apply Z.mod_small; assumption).
    rewrite Z.mod_pow2_bits_high by lia. reflexivity.
Qed.

Lemma lor_low_high a k n :
  0 <= n -> 0 <= a < 2 ^ n -> Z.lor a (k * 2 ^ n) = a + k * 2 ^ n.
Proof.
  intros Hn Ha. pose proof (land_low_high a k n Hn Ha) as H.
  rewrite <- Z.lxor_lor by assumption.
  symmetry. apply Z.add_nocarry_lxor. assumption.
Qed.

(** Masking with a multiple-of-[2^n] all-ones pattern clears the low bits. *)
Lemma land_high_mask v n :
  0 <= n -> Z.land v (- 2 ^ n) = v / 2 ^ n * 2 ^ n.
Proof.
  intros Hn.
  replace (- 2 ^ n) with (Z.lnot (Z.ones n))
    by (rewrite Z.ones_equiv; unfold Z.lnot; lia).
  rewrite <- Z.ldiff_land, Z.ldiff_ones_r by assumption.
  rewrite Z.shiftl_mul_pow2, Z.shiftr_div_pow2 by assumption. reflexivity.
Qed.

Lemma land_low_mask v n :
  0 <= n -> Z.land v (2 ^ n - 1) = v mod 2 ^ n.
Proof.
  intros Hn. replace (2 ^ n - 1) with (Z.ones n)
    by (rewrite Z.ones_equiv; lia).
  apply Z.land_ones. assumption.
Qed.

(** Flipping the sign bit of a signed 32-bit value. *)
Lemma lxor_sign_bit v :
  - 2 ^ 31 <= v < 2 ^ 31 ->
  Z.lxor v (- 2 ^ 31) = if v <? 0 then v + 2 ^ 31 else v - 2 ^ 31.
Proof.
  assert (Hpos : forall w, 0 <= w < 2 ^ 31 -> Z.lxor w (- 2 ^ 31) = w - 2 ^ 31).
  { intros w Hw. rewrite <- Z.add_nocarry_lxor; [lia|].
    rewrite land_high_mask by lia. zlia. }
  intros Hv. destruct (Z.ltb_spec v 0) as [Hneg | Hnn].
  - replace v with (Z.lxor (v + 2 ^ 31) (- 2 ^ 31)) at 1
      by (rewrite Hpos; lia).
    rewrite Z.lxor_assoc, Z.lxor_nilpotent. apply Z.lxor_0_r.
  - apply Hpos. lia.
Qed.

End MachineFacts.

(** Resolve the tests of the selection idiom and the wrap-arounds. *)
Ltac crunch :=
  rewrite ?land_b2z, ?select_b2z;
  repeat match goal with
         | |- context [ ?a >? ?b ] =>
             destruct (Z.gtb_spec a b); try (exfalso; zlia)
         end;
  cbn [andb];
  rewrite ?Z.shiftr_div_pow2, ?Z.shiftl_mul_pow2 by lia;
  unfold u32, i32, u16; zlia.

(** ** Floating-point order on bit patterns *)

Section FloatOrder.

(** The shape of a decoded binary32 pattern. *)
Lemma f32_of_bits_cases a :
  0 <= a < 2 ^ 32 ->
  let s := 2 ^ 31 <=? a in
  let g := mag32 a in
  (g = 0 /\ f32_of_bits a = S754_zero s)
  \/ (0 < g < 2 ^ 23 /\ f32_of_bits a = S754_finite s (Z.to_pos g) (-149))
  \/ (2 ^ 23 <= g < 0x7F800000 /\
      f32_of_bits a =
        S754_finite s (Z.to_pos (g mod 2 ^ 23 + 2 ^ 23)) (g / 2 ^ 23 - 150))
  \/ (g = 0x7F800000 /\ f32_of_bits a = S754_infinity s)
  \/ (0x7F800000 < g /\ f32_of_bits a = S754_nan).
Proof.
  intros Ha s g. subst s g.
  unfold f32_of_bits, decode, sign_of, expo_of, mant_of, mag32.
  change (2 ^ (8 - 1) - 1) with 127. change (2 ^ 8 - 1) with 255.
  change (8 + 23) with 31.
  assert (Hs : Z.testbit a 31 = (2 ^ 31 <=? a)).
  { destruct (Z.leb_spec (2 ^ 31) a) as [H | H].
    - apply Z.testbit_true; [lia|]. zlia.
    - apply Z.testbit_false; [lia|]. zlia. }
  rewrite Hs.
  destruct (Z.eqb_spec ((a / 2 ^ 23) mod 2 ^ 8) 0) as [He0 | He0].
  - destruct (a mod 2 ^ 23) as [|p|p] eqn:Hm.
    + left. split; [zlia | reflexivity].
    + right; left. split; [zlia|].
      replace (a mod 2 ^ 31) with (Z.pos p) by zlia. reflexivity.
    + exfalso. zlia.
  - destruct (Z.eqb_spec ((a / 2 ^ 23) mod 2 ^ 8) 255) as [He1 | He1].
    + destruct (Z.eqb_spec (a mod 2 ^ 23) 0) as [Hm | Hm].
      * do 3 right; left. split; [zlia | reflexivity].
      * do 4 right. split; [zlia | reflexivity].
    + do 2 right; left. split; [zlia|].
      replace ((a mod 2 ^ 31) mod 2 ^ 23) with (a mod 2 ^ 23) by zlia.
      replace (a mod 2 ^ 31 / 2 ^ 23) with ((a / 2 ^ 23) mod 2 ^ 8) by zlia.
      destruct (a mod 2 ^ 23 + 2 ^ 23) as [|p|p] eqn:Hm.
      * exfalso. zlia.
      * simpl Z.to_pos. f_equal. lia.
      * exfalso. zlia.
Qed.

(** The shape of a decoded binary16 pattern. *)
Lemma f16_of_bits_cases a :
  0 <= a < 2 ^ 16 ->
  let s := 2 ^ 15 <=? a in
  let g := a mod 2 ^ 15 in
  (g = 0 /\ f16_of_bits a = S754_zero s)
  \/ (0 < g < 2 ^ 10 /\ f16_of_bits a = S754_finite s (Z.to_pos g) (-24))
  \/ (2 ^ 10 <= g < 0x7C00 /\
      f16_of_bits a =
        S754_finite s (Z.to_pos (g mod 2 ^ 10 + 2 ^ 10)) (g / 2 ^ 10 - 25))
  \/ (g = 0x7C00 /\ f16_of_bits a = S754_infinity s)
  \/ (0x7C00 < g /\ f16_of_bits a = S754_nan).
Proof.
  intros Ha s g. subst s g.
  unfold f16_of_bits, decode, sign_of, expo_of, mant_of.
  change (2 ^ (5 - 1) - 1) with 15. change (2 ^ 5 - 1) with 31.
  change (5 + 10) with 15.
  assert (Hs : Z.testbit a 15 = (2 ^ 15 <=? a)).
  { destruct (Z.leb_spec (2 ^ 15) a) as [H | H].
    - apply Z.testbit_true; [lia|]. zlia.
    - apply Z.testbit_false; [lia|]. zlia. }
  rewrite Hs.
  destruct (Z.eqb_spec ((a / 2 ^ 10) mod 2 ^ 5) 0) as [He0 | He0].
  - destruct (a mod 2 ^ 10) as [|p|p] eqn:Hm.
    + left. split; [zlia | reflexivity].
    + right; left. split; [zlia|].
      replace (a mod 2 ^ 15) with (Z.pos p) by zlia. reflexivity.
    + exfalso. zlia.
  - destruct (Z.eqb_spec ((a / 2 ^ 10) mod 2 ^ 5) 31) as [He1 | He1].
    + destruct (Z.eqb_spec (a mod 2 ^ 10) 0) as [Hm | Hm].
      * do 3 right; left. split; [zlia | reflexivity].
      * do 4 right. split; [zlia | reflexivity].
    + do 2 right; left. split; [zlia|].
      replace ((a mod 2 ^ 15) mod 2 ^ 10) with (a mod 2 ^ 10) by zlia.
      replace (a mod 2 ^ 15 / 2 ^ 10) with ((a / 2 ^ 10) mod 2 ^ 5) by zlia.
      destruct (a mod 2 ^ 10 + 2 ^ 10) as [|p|p] eqn:Hm.
      * exfalso. zlia.
      * simpl Z.to_pos. f_equal. lia.
      * exfalso. zlia.
Qed.

(** The value of a finite binary32 pattern. *)
Lemma f32_scaled_value a :
  0 <= a < 2 ^ 32 -> mag32 a < 0x7F800000 ->
  scaled_value (f32_of_bits a) =
    Some ((if 2 ^ 31 <=? a then -1 else 1) * ulps32 (mag32 a)).
Proof.
  intros Ha Hg. pose proof (f32_of_bits_cases a Ha) as Ca.
  cbv zeta in Ca. unfold ulps32.
  destruct Ca as [[Ga ->] | [[Ga ->] | [[Ga ->] | [[Ga _] | [Ga _]]]]];
    try (exfalso; lia); cbn [scaled_value].
  - rewrite Ga. cbn. f_equal. lia.
  - change (-149 <=? -149) with true. cbv iota.
    rewrite Z2Pos.id by lia. change (-149 + 149) with 0.
    destruct (Z.ltb_spec (mag32 a) (2 ^ 23)); [|lia].
    f_equal. lia.
  - destruct (Z.leb_spec (-149) (mag32 a / 2 ^ 23 - 150)); [|exfalso; zlia].
    rewrite Z2Pos.id by zlia.
    destruct (Z.ltb_spec (mag32 a) (2 ^ 23)); [lia|].
    do 4 f_equal. lia.
Qed.

(** Larger magnitude bits denote a larger magnitude. *)
Lemma ulps32_lt g1 g2 : 0 <= g1 < g2 -> ulps32 g1 < ulps32 g2.
Proof.
  intros H. unfold ulps32.
  destruct (Z.ltb_spec g1 (2 ^ 23)), (Z.ltb_spec g2 (2 ^ 23)); try lia.
  - assert (1 <= 2 ^ (g2 / 2 ^ 23 - 1))
      by (apply Z.pow_le_mono_r with (b := 0); zlia).
    assert (0 <= g2 mod 2 ^ 23) by zlia. nia.
  - destruct (Z.eq_dec (g1 / 2 ^ 23) (g2 / 2 ^ 23)) as [He | He].
    + rewrite He.
      assert (0 < 2 ^ (g2 / 2 ^ 23 - 1)) by (apply Z.pow_pos_nonneg; zlia).
      assert (g1 mod 2 ^ 23 < g2 mod 2 ^ 23) by zlia. nia.
    + assert (Hlt : g1 / 2 ^ 23 < g2 / 2 ^ 23)
        by (pose proof (Z.div_le_mono g1 g2 (2 ^ 23)); lia).
      assert (Hp : 2 * 2 ^ (g1 / 2 ^ 23 - 1) <= 2 ^ (g2 / 2 ^ 23 - 1)).
      { rewrite <- Z.pow_succ_r by zlia.
        apply Z.pow_le_mono_r; lia. }
      assert (0 < 2 ^ (g1 / 2 ^ 23 - 1)) by (apply Z.pow_pos_nonneg; zlia).
      assert (0 <= g1 mod 2 ^ 23 < 2 ^ 23) by zlia.
      assert (0 <= g2 mod 2 ^ 23 < 2 ^ 23) by zlia.
      nia.
Qed.

Lemma ulps32_inj g1 g2 :
  0 <= g1 -> 0 <= g2 -> ulps32 g1 = ulps32 g2 -> g1 = g2.
Proof.
  intros H1 H2 He.
  destruct (Z.lt_trichotomy g1 g2) as [Hlt | [Heq | Hgt]]; [|assumption|].
  - pose proof (ulps32_lt g1 g2). lia.
  - pose proof (ulps32_lt g2 g1). lia.
Qed.

Lemma ulps32_zero g : 0 <= g -> ulps32 g = 0 -> g = 0.
Proof.
  intros Hg He. apply ulps32_inj; [assumption | lia |].
  rewrite He. reflexivity.
Qed.

Ltac settle_comparison :=
  f_equal; symmetry;
  first [ apply Z.compare_eq_iff; zlia
        | apply Z.compare_lt_iff; zlia
        | apply Z.compare_gt_iff; zlia ].

(** On patterns that are not NaN, the IEEE comparison is the comparison
    of the keys. *)
Lemma f32_compare a b :
  0 <= a < 2 ^ 32 -> 0 <= b < 2 ^ 32 ->
  nan32 a = false -> nan32 b = false ->
  SFcompare (f32_of_bits a) (f32_of_bits b) = Some (key32 a ?= key32 b).
Proof.
  intros Ha Hb Na Nb. unfold nan32 in Na, Nb.
  apply Z.ltb_ge in Na, Nb.
  pose proof (f32_of_bits_cases a Ha) as Ca.
  pose proof (f32_of_bits_cases b Hb) as Cb.
  cbv zeta in Ca, Cb. unfold key32.
  unfold mag32 in *.
  destruct Ca as [[Ga ->] | [[Ga ->] | [[Ga ->] | [[Ga ->] | [Ga _]]]]];
    [ | | | | exfalso; lia ];
  (destruct Cb as [[Gb ->] | [[Gb ->] | [[Gb ->] | [[Gb ->] | [Gb _]]]]];
    [ | | | | exfalso; lia ]);
  destruct (Z.leb_spec (2 ^ 31) a) as [Sa | Sa];
  destruct (Z.leb_spec (2 ^ 31) b) as [Sb | Sb];
  destruct (Z.ltb_spec a (2 ^ 31)) as [Ta | Ta]; try (exfalso; lia);
  destruct (Z.ltb_spec b (2 ^ 31)) as [Tb | Tb]; try (exfalso; lia);
  cbn [SFcompare];
  try settle_comparison;
  change (Pos.compare_cont Eq) with Pos.compare;
  rewrite Pos2Z.inj_compare, !Z2Pos.id by zlia;
  repeat match goal with
         | |- context [ ?x ?= ?y ] => destruct (Z.compare_spec x y)
         end;
  cbn [CompOpp]; first [ reflexivity | exfalso; zlia ].
Qed.

Lemma f32_compare_nan a b :
  0 <= a < 2 ^ 32 -> 0 <= b < 2 ^ 32 ->
  nan32 a = true \/ nan32 b = true ->
  SFcompare (f32_of_bits a) (f32_of_bits b) = None.
Proof.
  intros Ha Hb Hn. unfold nan32, mag32 in Hn.
  pose proof (f32_of_bits_cases a Ha) as Ca.
  pose proof (f32_of_bits_cases b Hb) as Cb.
  cbv zeta in Ca, Cb. unfold mag32 in *.
  destruct Hn as [Hn | Hn]; apply Z.ltb_lt in Hn.
  - destruct Ca as [[Ga _] | [[Ga _] | [[Ga _] | [[Ga _] | [Ga ->]]]]];
      try (exfalso; lia). reflexivity.
  - destruct Cb as [[Gb _] | [[Gb _] | [[Gb _] | [[Gb _] | [Gb ->]]]]];
      try (exfalso; lia).
    destruct (f32_of_bits a); reflexivity.
Qed.

Lemma flt_spec a b :
  0 <= a < 2 ^ 32 -> 0 <= b < 2 ^ 32 ->
  flt (f32_of_bits a) (f32_of_bits b) = true <->
  nan32 a = false /\ nan32 b = false /\ key32 a < key32 b.
Proof.
  intros Ha Hb. unfold flt, SFltb.
  destruct (nan32 a) eqn:Na; [|destruct (nan32 b) eqn:Nb].
  - rewrite f32_compare_nan by auto. intuition discriminate.
  - rewrite f32_compare_nan by auto. intuition discriminate.
  - rewrite f32_compare by assumption.
    destruct (Z.compare_spec (key32 a) (key32 b));
      intuition (try discriminate; try lia).
Qed.

Lemma fle_spec a b :
  0 <= a < 2 ^ 32 -> 0 <= b < 2 ^ 32 ->
  fle (f32_of_bits a) (f32_of_bits b) = true <->
  nan32 a = false /\ nan32 b = false /\ key32 a <= key32 b.
Proof.
  intros Ha Hb. unfold fle, SFleb.
  destruct (nan32 a) eqn:Na; [|destruct (nan32 b) eqn:Nb].
  - rewrite f32_compare_nan by auto. intuition discriminate.
  - rewrite f32_compare_nan by auto. intuition discriminate.
  - rewrite f32_compare by assumption.
    destruct (Z.compare_spec (key32 a) (key32 b));
      intuition (try discriminate; try lia).
Qed.

(** [fabs] clears the sign bit. *)
Lemma SFabs_f32_of_bits a :
  0 <= a < 2 ^ 32 -> SFabs (f32_of_bits a) = f32_of_bits (mag32 a).
Proof.
  intros Ha.
  assert (Hg : 0 <= mag32 a < 2 ^ 32) by (unfold mag32; zlia).
  pose proof (f32_of_bits_cases a Ha) as Ca.
  pose proof (f32_of_bits_cases (mag32 a) Hg) as Cg.
  cbv zeta in Ca, Cg.
  replace (mag32 (mag32 a)) with (mag32 a) in Cg by (unfold mag32; zlia).
  replace (2 ^ 31 <=? mag32 a) with false in Cg
    by (symmetry; apply Z.leb_gt; unfold mag32; zlia).
  destruct Ca as [[Ga ->] | [[Ga ->] | [[Ga ->] | [[Ga ->] | [Ga ->]]]]];
    destruct Cg as [[Gb ->] | [[Gb ->] | [[Gb ->] | [[Gb ->] | [Gb ->]]]]];
    try (exfalso; lia); reflexivity.
Qed.

End FloatOrder.

(** ** Bit fields *)

Section BitFields.

(** Masking a field of [w] bits at offset [lo]. *)
Lemma land_field n lo w :
  0 <= lo -> 0 <= w ->
  Z.land n ((2 ^ w - 1) * 2 ^ lo) = (n / 2 ^ lo) mod 2 ^ w * 2 ^ lo.
Proof.
  intros Hlo Hw. apply Z.bits_inj'. intros i Hi.
  rewrite <- !Z.shiftl_mul_pow2, <- Z.shiftr_div_pow2 by assumption.
  rewrite <- Z.land_ones by assumption.
  replace (2 ^ w - 1) with (Z.ones w) by (rewrite Z.ones_equiv; lia).
  rewrite Z.land_spec, !Z.shiftl_spec by assumption.
  destruct (Z.lt_ge_cases i lo) as [Hlt | Hge].
  - rewrite !(Z.testbit_neg_r _ (i - lo)) by lia. apply andb_false_r.
  - rewrite Z.land_spec, Z.shiftr_spec by lia.
    replace (i - lo + lo) with i by lia. reflexivity.
Qed.

Lemma field_shiftr a lo : 0 <= lo -> Z.shiftr (a * 2 ^ lo) lo = a.
Proof.
  intros Hlo. rewrite Z.shiftr_div_pow2 by assumption.
  apply Z.div_mul. apply Z.pow_nonzero; lia.
Qed.

End BitFields.

(** ** The 18-bit microfloat *)

Section MicroFloat.

(** [decompress18] in arithmetic form, for every argument. *)
Lemma decompress18_fields n :
  decompress18 n =
    u32 n mod 2 ^ 12 * 2 ^ 11
    + ((u32 n / 2 ^ 12) mod 2 ^ 5 + 0x70) * 2 ^ 23
    + (u32 n / 2 ^ 17) mod 2 ^ 1 * 2 ^ 31.
Proof.
  unfold decompress18, shl_u, shr_u.
  pose proof (u32_range n) as Hn. set (m := u32 n) in *.
  change 0xfff with (2 ^ 12 - 1).
  change 0x1f000 with ((2 ^ 5 - 1) * 2 ^ 12).
  change 0x20000 with ((2 ^ 1 - 1) * 2 ^ 17).
  rewrite land_low_mask, !land_field by lia.
  rewrite !Z.shiftl_mul_pow2 by lia.
  rewrite (u32_small (_ * 2 ^ 12)) by zlia.
  rewrite field_shiftr by lia.
  rewrite (u32_small (_ + 0x70)) by zlia.
  rewrite (u32_small (_ * 2 ^ 11)) by zlia.
  rewrite (u32_small (_ * 2 ^ 23)) by zlia.
  replace ((m / 2 ^ 17) mod 2 ^ 1 * 2 ^ 17 * 2 ^ 14)
    with ((m / 2 ^ 17) mod 2 ^ 1 * 2 ^ 31) by lia.
  rewrite (u32_small (_ * 2 ^ 31)) by zlia.
  rewrite (lor_low_high _ _ 23) by zlia.
  rewrite (lor_low_high _ _ 31) by zlia.
  reflexivity.
Qed.

(** [compress18] in arithmetic form, inside the exponent window. *)
Lemma compress18_fields n :
  0 <= n < 2 ^ 32 -> 0x70 <= expo_of 8 23 n <= 0x8F ->
  compress18 n =
    (n / 2 ^ 11) mod 2 ^ 12
    + (expo_of 8 23 n - 0x70) * 2 ^ 12
    + sign_field 8 23 n * 2 ^ 17.
Proof.
  unfold expo_of, sign_field. change (2 ^ (8 + 23)) with (2 ^ 31).
  intros Hn He. unfold compress18, shl_u, shr_u.
  rewrite (u32_small n) by assumption.
  change 0x7ff800 with ((2 ^ 12 - 1) * 2 ^ 11).
  change 0x7f800000 with ((2 ^ 8 - 1) * 2 ^ 23).
  change 0x80000000 with ((2 ^ 1 - 1) * 2 ^ 31).
  rewrite !land_field by lia.
  rewrite !(u32_small (_ * 2 ^ _)) by zlia.
  rewrite !field_shiftr by lia.
  rewrite (u32_small (_ - 0x70)) by zlia.
  rewrite Z.shiftl_mul_pow2 by lia.
  rewrite (u32_small (_ * 2 ^ 12)) by zlia.
  rewrite Z.shiftr_div_pow2 by lia.
  replace ((n / 2 ^ 31) mod 2 ^ 1 * 2 ^ 31 / 2 ^ 14)
    with ((n / 2 ^ 31) mod 2 * 2 ^ 17) by zlia.
  rewrite (lor_low_high _ _ 12) by zlia.
  rewrite (lor_low_high _ _ 17) by zlia.
  reflexivity.
Qed.

(** Inside the window the round trip is the identity on patterns whose
    low 11 bits are clear. *)
Lemma roundtrip18_window x :
  0 <= x < 2 ^ 32 ->
  0x70 <= expo_of 8 23 x <= 0x8F ->
  mant_of 23 x mod 2 ^ 11 = 0 ->
  decompress18 (compress18 x) = x.
Proof.
  intros Hx He Hm. rewrite decompress18_fields, compress18_fields by assumption.
  unfold expo_of, mant_of, sign_field in *.
  change (2 ^ (8 + 23)) with (2 ^ 31) in *.
  set (M := (x / 2 ^ 11) mod 2 ^ 12).
  set (E := (x / 2 ^ 23) mod 2 ^ 8) in *.
  set (S := (x / 2 ^ 31) mod 2).
  assert (HM : 0 <= M < 2 ^ 12) by (subst M; zlia).
  assert (HS : 0 <= S < 2) by (subst S; zlia).
  assert (Hx' : x = M * 2 ^ 11 + E * 2 ^ 23 + S * 2 ^ 31)
    by (subst M E S; zlia).
  set (t := M + (E - 0x70) * 2 ^ 12 + S * 2 ^ 17).
  assert (Ht : 0 <= t < 2 ^ 18) by (subst t; lia).
  rewrite (u32_small t) by lia.
  replace (t mod 2 ^ 12) with M by (subst t; zlia).
  replace ((t / 2 ^ 12) mod 2 ^ 5) with (E - 0x70) by (subst t; zlia).
  replace ((t / 2 ^ 17) mod 2 ^ 1) with S by (subst t; zlia).
  lia.
Qed.

(** Every decoded pattern lies in the window with its low bits clear. *)
Lemma decompress18_in_window n :
  let y := decompress18 n in
  0 <= y < 2 ^ 32 /\ 0x70 <= expo_of 8 23 y <= 0x8F /\
  mant_of 23 y mod 2 ^ 11 = 0.
Proof.
  cbv zeta. rewrite decompress18_fields. unfold expo_of, mant_of.
  pose proof (u32_range n) as Hn. set (m := u32 n) in *.
  zlia.
Qed.

(** The two low fields of [compress18], for every argument. *)
Lemma compress18_low_fields x :
  0 <= x < 2 ^ 32 ->
  compress18 x mod 2 ^ 12 = mant_of 23 x / 2 ^ 11 /\
  (compress18 x / 2 ^ 12) mod 2 ^ 5 = (expo_of 8 23 x - 0x70) mod 2 ^ 5.
Proof.
  intros Hx. unfold compress18, shl_u, shr_u, expo_of, mant_of.
  rewrite (u32_small x) by assumption.
  change 0x7ff800 with ((2 ^ 12 - 1) * 2 ^ 11).
  change 0x7f800000 with ((2 ^ 8 - 1) * 2 ^ 23).
  change 0x80000000 with ((2 ^ 1 - 1) * 2 ^ 31).
  rewrite !land_field by lia.
  rewrite !(u32_small (_ * 2 ^ _)) by zlia.
  rewrite !field_shiftr by lia.
  rewrite Z.shiftl_mul_pow2 by lia.
  rewrite Z.shiftr_div_pow2 by lia.
  set (M := (x / 2 ^ 11) mod 2 ^ 12).
  set (E := (x / 2 ^ 23) mod 2 ^ 8).
  set (U := u32 (E - 0x70)).
  replace ((x / 2 ^ 31) mod 2 ^ 1 * 2 ^ 31 / 2 ^ 14)
    with ((x / 2 ^ 31) mod 2 * 2 ^ 5 * 2 ^ 12) by zlia.
  replace (u32 (U * 2 ^ 12)) with (U mod 2 ^ 20 * 2 ^ 12)
    by (unfold u32; zlia).
  assert (HM : 0 <= M < 2 ^ 12) by (subst M; zlia).
  rewrite (lor_low_high M _ 12) by lia.
  set (K := U mod 2 ^ 20). set (T := (x / 2 ^ 31) mod 2 * 2 ^ 5).
  split.
  - rewrite <- !Z.land_ones, Z.land_lor_distr_l, !Z.land_ones by lia.
    replace ((M + K * 2 ^ 12) mod 2 ^ 12) with M by zlia.
    replace ((T * 2 ^ 12) mod 2 ^ 12) with 0 by zlia.
    rewrite Z.lor_0_r. subst M. zlia.
  - rewrite <- !Z.shiftr_div_pow2, Z.shiftr_lor, !Z.shiftr_div_pow2 by lia.
    replace ((M + K * 2 ^ 12) / 2 ^ 12) with K by zlia.
    replace (T * 2 ^ 12 / 2 ^ 12) with T by zlia.
    rewrite <- !Z.land_ones, Z.land_lor_distr_l, !Z.land_ones by lia.
    replace (T mod 2 ^ 5) with 0 by (subst T; zlia).
    rewrite Z.lor_0_r. subst K U. unfold u32. zlia.
Qed.

End MicroFloat.

(** ** The half-precision codec *)

Section HalfCodec.

Import Float16Compressor.

Lemma half_constants :
  n_inf = 0x7F800000 /\ n_max = 0x477FE000 /\ n_min = 0x38800000
  /\ n_sign = - 2 ^ 31 /\ n_nan = 0x7F802000 /\ c_sign = - 2 ^ 15
  /\ c_max = 0x23BFF /\ d_max = 0x1C000 /\ d_min = 0x1C000.
Proof. repeat split; reflexivity. Qed.

Ltac half_consts :=
  change n_inf with 0x7F800000 in *; change n_max with 0x477FE000 in *;
  change n_min with 0x38800000 in *; change n_sign with (- 2 ^ 31) in *;
  change n_nan with 0x7F802000 in *; change c_sign with (- 2 ^ 15) in *;
  change c_max with 0x23BFF in *; change d_max with 0x1C000 in *;
  change d_min with 0x1C000 in *; change c_sub with 0x3FF in *;
  change c_nor with 0x400 in *; change shift with 13 in *;
  change shift_sign with 16 in *.

(** Removing the high part of a non-negative value with [xor]. *)
Lemma lxor_strip_high h n :
  0 <= n -> 0 <= h -> Z.lxor h (h / 2 ^ n * 2 ^ n) = h mod 2 ^ n.
Proof.
  intros Hn Hh.
  assert (Hlo : 0 <= h mod 2 ^ n < 2 ^ n) by (apply Z.mod_pos_bound; lia).
  pose proof (land_low_high (h mod 2 ^ n) (h / 2 ^ n) n Hn Hlo) as Hd.
  rewrite (Z.div_mod h (2 ^ n)) at 1 by lia.
  rewrite (Z.mul_comm (2 ^ n)), Z.add_comm.
  rewrite (Z.add_nocarry_lxor _ _ Hd).
  rewrite Z.lxor_assoc, Z.lxor_nilpotent. apply Z.lxor_0_r.
Qed.

(** [compress] on magnitudes from the smallest half normal upwards. *)
Lemma compress_from_normal x :
  0 <= x < 2 ^ 32 -> 0x38800000 <= mag32 x ->
  compress x =
    x / 2 ^ 31 * 2 ^ 15 +
    (if mag32 x <=? 0x477FE000 then mag32 x / 2 ^ 13 - 0x1C000
     else if mag32 x <=? 0x7F800000 then 0x7C00
     else if mag32 x <? 0x7F802000 then 0x7C01
     else mag32 x / 2 ^ 13 - 0x38000).
Proof.
  intros Hx Hg. unfold mag32 in *.
  set (g := x mod 2 ^ 31) in *.
  assert (Hgr : 0 <= g < 2 ^ 31) by (subst g; zlia).
  cbv delta [compress] beta.
  let_step v0. let_step sign. let_step v1. let_step sign16.
  let_step s0. let_step s. let_step v2. let_step v3. let_step v4.
  let_step v5. let_step v6. let_step v7.
  half_consts. unfold shr_u, sub in *.
  settle sign as (x / 2 ^ 31 * 2 ^ 31)
    by (rewrite land_high_mask by lia; unfold v0, u32, i32; zlia).
  settle v1 as g by
    (unfold v0; rewrite u32_i32, (u32_small x), lxor_strip_high by lia;
     apply i32_small; zlia).
  clear v0.
  settle sign16 as (x / 2 ^ 31 * 2 ^ 15)
    by (rewrite (u32_small (_ * _)), Z.shiftr_div_pow2 by zlia; zlia).
  clearbody s. clear s0.
  rewrite ?land_b2z, ?select_b2z in *.
  settle v2 as g by
    (rewrite select_b2z; destruct (Z.gtb_spec 0x38800000 g); lia).
  assert (Hlor : forall w, 0 <= w < 2 ^ 15 ->
            u16 (Z.lor (u32 w) (x / 2 ^ 31 * 2 ^ 15))
            = x / 2 ^ 31 * 2 ^ 15 + w).
  { intros w Hw. rewrite (u32_small w) by lia.
    rewrite lor_low_high by lia. unfold u16. zlia. }
  destruct (Z.leb_spec g 0x477FE000);
    [| destruct (Z.leb_spec g 0x7F800000);
       [| destruct (Z.ltb_spec g 0x7F802000)]].
  - settle v3 as g by crunch. settle v4 as g by crunch.
    settle v5 as (g / 2 ^ 13) by crunch.
    settle v6 as (g / 2 ^ 13) by crunch.
    settle v7 as (g / 2 ^ 13 - 0x1C000) by crunch.
    apply Hlor. zlia.
  - settle v3 as 0x7F800000 by crunch. settle v4 as 0x7F800000 by crunch.
    settle v5 as 0x3FC00 by reflexivity.
    settle v6 as 0x23C00 by reflexivity.
    settle v7 as 0x7C00 by reflexivity.
    apply Hlor. lia.
  - settle v3 as g by crunch. settle v4 as 0x7F802000 by crunch.
    settle v5 as 0x3FC01 by reflexivity.
    settle v6 as 0x23C01 by reflexivity.
    settle v7 as 0x7C01 by reflexivity.
    apply Hlor. lia.
  - settle v3 as g by crunch. settle v4 as g by crunch.
    settle v5 as (g / 2 ^ 13) by crunch.
    settle v6 as (g / 2 ^ 13 - 0x1C000) by crunch.
    settle v7 as (g / 2 ^ 13 - 0x38000) by crunch.
    apply Hlor. zlia.
Qed.

(** [decompress] on half patterns from the smallest normal upwards. *)
Lemma decompress_from_normal h :
  0 <= h < 2 ^ 16 -> 0x400 <= h mod 2 ^ 15 ->
  decompress h =
    h / 2 ^ 15 * 2 ^ 31 +
    (h mod 2 ^ 15 + (if h mod 2 ^ 15 <? 0x7C00 then 0x1C000 else 0x38000))
    * 2 ^ 13.
Proof.
  intros Hh Hm. set (m := h mod 2 ^ 15) in *.
  assert (Hmr : 0 <= m < 2 ^ 15) by (subst m; zlia).
  cbv delta [decompress] beta.
  let_step v0. let_step sign. let_step v1. let_step sign32.
  let_step v2. let_step v3. let_step s0. let_step s. let_step mask.
  let_step v4. let_step v5. let_step v6.
  half_consts. unfold add in *.
  settle v0 as h by (unfold u16, i32; zlia).
  settle sign as (h / 2 ^ 15 * 2 ^ 15) by (apply land_high_mask; lia).
  settle v1 as m by (apply lxor_strip_high; lia).
  settle sign32 as (- (h / 2 ^ 15) * 2 ^ 31)
    by (unfold shl_s; rewrite Z.shiftl_mul_pow2 by lia; unfold i32; zlia).
  clearbody s. clear s0.
  destruct (Z.ltb_spec m 0x7C00).
  - settle v2 as (m + 0x1C000) by crunch.
    settle v3 as (m + 0x1C000) by crunch.
    settle mask as 0
      by (destruct (Z.gtb_spec 0x400 (m + 0x1C000)); [lia | reflexivity]).
    settle v4 as ((m + 0x1C000) * 2 ^ 13)
      by (unfold shl_s; rewrite Z.shiftl_mul_pow2 by lia; apply i32_small; lia).
    settle v5 as ((m + 0x1C000) * 2 ^ 13)
      by (rewrite Z.land_0_r; apply Z.lxor_0_r).
    subst v6. rewrite lor_low_high by lia. unfold u32. zlia.
  - settle v2 as (m + 0x1C000) by crunch.
    settle v3 as (m + 0x38000) by crunch.
    settle mask as 0
      by (destruct (Z.gtb_spec 0x400 (m + 0x38000)); [lia | reflexivity]).
    settle v4 as ((m + 0x38000) * 2 ^ 13)
      by (unfold shl_s; rewrite Z.shiftl_mul_pow2 by lia; apply i32_small; lia).
    settle v5 as ((m + 0x38000) * 2 ^ 13)
      by (rewrite Z.land_0_r; apply Z.lxor_0_r).
    subst v6. rewrite lor_low_high by lia. unfold u32. zlia.
Qed.

Lemma forall_from_spec p n z0 :
  forall_from n z0 p = true ->
  forall z, z0 <= z < z0 + Z.of_nat n -> p z = true.
Proof.
  revert z0. induction n as [|n IH]; intros z0 H z Hz.
  - simpl in Hz. lia.
  - cbn [forall_from] in H. apply andb_true_iff in H. destruct H as [H0 H1].
    destruct (Z.eq_dec z z0) as [-> | Hne]; [assumption|].
    apply (IH (z0 + 1) H1). lia.
Qed.

Lemma forall_range_spec p k z0 :
  0 <= k -> forall_from (Z.to_nat k) z0 p = true ->
  forall z, z0 <= z < z0 + k -> p z = true.
Proof.
  intros Hk H z Hz. apply (forall_from_spec _ _ _ H).
  rewrite Z2Nat.id by assumption. assumption.
Qed.

Lemma subnormal_halves_checked :
  forall_from (Z.to_nat 1024) 0
    (fun h => facts_eqb (half_decoding_facts h) (half_expected_facts h)) = true
  /\
  forall_from (Z.to_nat 1024) 0x8000
    (fun h => facts_eqb (half_decoding_facts h) (half_expected_facts h)) = true.
Proof. split; vm_compute; reflexivity. Qed.

Lemma option_Z_eqb_eq a b : option_Z_eqb a b = true -> a = b.
Proof.
  destruct a, b; cbn; intros H; try discriminate; [|reflexivity].
  apply Z.eqb_eq in H. congruence.
Qed.

Lemma facts_eqb_eq a b : facts_eqb a b = true -> a = b.
Proof.
  destruct a as [[[a1 a2] a3] a4], b as [[[b1 b2] b3] b4]. cbn [facts_eqb].
  rewrite !andb_true_iff. intros [[[H1 H2] H3] H4].
  apply Z.eqb_eq in H1, H3. apply option_Z_eqb_eq in H2.
  apply Bool.eqb_prop in H4. congruence.
Qed.

Lemma subnormal_half_exact h :
  0 <= h < 2 ^ 16 -> h mod 2 ^ 15 < 0x400 -> decodes_exactly h.
Proof.
  intros Hh Hm.
  assert (Hr : 0 <= h < 0 + 1024 \/ 0x8000 <= h < 0x8000 + 1024) by zlia.
  assert (Hk : 0 <= 1024) by lia.
  assert (Hc : half_decoding_facts h = half_expected_facts h).
  { apply facts_eqb_eq.
    destruct subnormal_halves_checked as [Hp Hn].
    destruct Hr as [Hr | Hr].
    - exact (forall_range_spec _ 1024 0 Hk Hp h Hr).
    - exact (forall_range_spec _ 1024 0x8000 Hk Hn h Hr). }
  unfold half_decoding_facts, half_expected_facts in Hc.
  injection Hc as H1 H2 H3 H4. apply Z.ltb_lt in H4.
  repeat split; assumption.
Qed.

(** Encoding undoes decoding on every half pattern from the normals up,
    infinities and NaNs included. *)
Lemma compress_decompress_from_normal h :
  0 <= h < 2 ^ 16 -> 0x400 <= h mod 2 ^ 15 ->
  compress (decompress h) = h.
Proof.
  intros Hh Hm. rewrite decompress_from_normal by assumption.
  set (m := h mod 2 ^ 15) in *.
  assert (Hmr : 0 <= m < 2 ^ 15) by (subst m; zlia).
  set (d := if m <? 0x7C00 then 0x1C000 else 0x38000).
  assert (Hd : (d = 0x1C000 /\ m < 0x7C00) \/ (d = 0x38000 /\ 0x7C00 <= m))
    by (subst d; destruct (Z.ltb_spec m 0x7C00); lia).
  set (x := h / 2 ^ 15 * 2 ^ 31 + (m + d) * 2 ^ 13).
  assert (Hx : 0 <= x < 2 ^ 32) by (subst x; zlia).
  assert (Hg : mag32 x = (m + d) * 2 ^ 13) by (unfold mag32; subst x; zlia).
  rewrite compress_from_normal by (rewrite ?Hg; lia).
  rewrite Hg.
  replace (x / 2 ^ 31) with (h / 2 ^ 15) by (subst x; zlia).
  replace ((m + d) * 2 ^ 13 / 2 ^ 13) with (m + d) by zlia.
  destruct (Z.leb_spec ((m + d) * 2 ^ 13) 0x477FE000);
    [| destruct (Z.leb_spec ((m + d) * 2 ^ 13) 0x7F800000);
       [| destruct (Z.ltb_spec ((m + d) * 2 ^ 13) 0x7F802000)]];
    subst m; zlia.
Qed.

Lemma normal_half_exact h :
  0 <= h < 2 ^ 16 -> 0x400 <= h mod 2 ^ 15 < 0x7C00 -> decodes_exactly h.
Proof.
  intros Hh Hm. unfold decodes_exactly.
  split; [apply compress_decompress_from_normal; lia|].
  rewrite decompress_from_normal by lia.
  set (m := h mod 2 ^ 15) in *.
  destruct (Z.ltb_spec m 0x7C00); [|lia].
  set (x := h / 2 ^ 15 * 2 ^ 31 + (m + 0x1C000) * 2 ^ 13).
  assert (Hx : 0 <= x < 2 ^ 32) by (subst x; zlia).
  assert (Hg : mag32 x = (m + 0x1C000) * 2 ^ 13)
    by (unfold mag32; subst x; zlia).
  assert (Hs : x / 2 ^ 31 = h / 2 ^ 15) by (subst x; zlia).
  split; [|split; [assumption | lia]].
  rewrite f32_scaled_value by lia.
  pose proof (f16_of_bits_cases h Hh) as Ch. cbv zeta in Ch. fold m in Ch.
  destruct Ch as [[G _] | [[G _] | [[G ->] | [[G _] | [G _]]]]];
    try (exfalso; lia).
  cbn [scaled_value].
  destruct (Z.leb_spec (-149) (m / 2 ^ 10 - 25)); [|exfalso; zlia].
  rewrite Z2Pos.id by zlia.
  replace (2 ^ 31 <=? x) with (2 ^ 15 <=? h)
    by (destruct (Z.leb_spec (2 ^ 15) h), (Z.leb_spec (2 ^ 31) x);
        try reflexivity; exfalso; subst x; zlia).
  do 2 f_equal. rewrite Hg. unfold ulps32.
  destruct (Z.ltb_spec ((m + 0x1C000) * 2 ^ 13) (2 ^ 23)); [lia|].
  replace ((m + 0x1C000) * 2 ^ 13 / 2 ^ 23 - 1) with (m / 2 ^ 10 + 111) by zlia.
  replace (((m + 0x1C000) * 2 ^ 13) mod 2 ^ 23) with (m mod 2 ^ 10 * 2 ^ 13)
    by zlia.
  replace (m / 2 ^ 10 - 25 + 149) with (13 + (m / 2 ^ 10 + 111)) by lia.
  rewrite (Z.pow_add_r 2 13 (m / 2 ^ 10 + 111)) by zlia.
  generalize (2 ^ (m / 2 ^ 10 + 111)). intros P. ring.
Qed.

Lemma f16_finite_bits h :
  0 <= h < 2 ^ 16 -> is_finite (f16_of_bits h) = true -> h mod 2 ^ 15 < 0x7C00.
Proof.
  intros Hh Hf. pose proof (f16_of_bits_cases h Hh) as Ch. cbv zeta in Ch.
  destruct Ch as [[G E] | [[G E] | [[G E] | [[G E] | [G E]]]]];
    rewrite E in Hf; try discriminate; lia.
Qed.

Lemma f32_finite_bits x :
  0 <= x < 2 ^ 32 -> is_finite (f32_of_bits x) = true ->
  mag32 x < 0x7F800000.
Proof.
  intros Hx Hf. pose proof (f32_of_bits_cases x Hx) as Cx. cbv zeta in Cx.
  destruct Cx as [[G E] | [[G E] | [[G E] | [[G E] | [G E]]]]];
    rewrite E in Hf; try discriminate; lia.
Qed.

Lemma finite_half_exact h :
  0 <= h < 2 ^ 16 -> is_finite (f16_of_bits h) = true -> decodes_exactly h.
Proof.
  intros Hh Hf. pose proof (f16_finite_bits h Hh Hf).
  destruct (Z.lt_ge_cases (h mod 2 ^ 15) 0x400).
  - apply subnormal_half_exact; assumption.
  - apply normal_half_exact; lia.
Qed.

(** Encoding undoes decoding on every half pattern. *)
Lemma compress_decompress h :
  0 <= h < 2 ^ 16 -> compress (decompress h) = h.
Proof.
  intros Hh. destruct (Z.lt_ge_cases (h mod 2 ^ 15) 0x400).
  - apply subnormal_half_exact; assumption.
  - apply compress_decompress_from_normal; assumption.
Qed.

Lemma compress_range x : 0 <= compress x < 2 ^ 16.
Proof.
  cbv delta [compress] beta zeta. unfold u16. apply Z.mod_pos_bound. lia.
Qed.

Lemma decompress_range h : 0 <= decompress h < 2 ^ 32.
Proof. cbv delta [decompress] beta zeta. apply u32_range. Qed.

Lemma ulps32_nonneg g : 0 <= g -> 0 <= ulps32 g.
Proof.
  intros Hg. destruct (Z.eq_dec g 0) as [-> | Hne]; [cbv; discriminate|].
  pose proof (ulps32_lt 0 g). change (ulps32 0) with 0 in *. lia.
Qed.

Lemma bits_of_sign_mag x y :
  0 <= x < 2 ^ 32 -> 0 <= y < 2 ^ 32 ->
  mag32 x = mag32 y -> (2 ^ 31 <=? x) = (2 ^ 31 <=? y) -> x = y.
Proof.
  unfold mag32. intros Hx Hy Hm Hs.
  destruct (Z.leb_spec (2 ^ 31) x), (Z.leb_spec (2 ^ 31) y);
    try discriminate; zlia.
Qed.

Lemma mag32_zero_cases x :
  0 <= x < 2 ^ 32 -> mag32 x = 0 -> x = 0 \/ x = 2 ^ 31.
Proof. unfold mag32. intros Hx Hm. zlia. Qed.

Lemma signed_ulps_eq (sx sy : bool) (ux uy : Z) :
  0 <= ux -> 0 <= uy ->
  (if sy then -1 else 1) * uy = (if sx then -1 else 1) * ux ->
  ux = uy /\ (sx = sy \/ ux = 0).
Proof. destruct sx, sy; intros; split; auto; lia. Qed.

Lemma zero_roundtrips :
  decompress (compress 0) = 0 /\ decompress (compress (2 ^ 31)) = 2 ^ 31.
Proof. split; vm_compute; reflexivity. Qed.

(** A finite binary32 pattern that denotes the value of a finite half
    survives the round trip. *)
Lemma representable_roundtrip x :
  0 <= x < 2 ^ 32 -> is_finite (f32_of_bits x) = true ->
  half_representable x ->
  decompress (compress x) = x.
Proof.
  intros Hx Hf (h & Hh & Hhf & Hv).
  destruct (finite_half_exact h Hh Hhf) as (Hc & Hy & Hs & Hm).
  pose proof (decompress_range h) as Hyr.
  pose proof (f32_finite_bits x Hx Hf) as Hxm.
  rewrite <- Hy in Hv. rewrite !f32_scaled_value in Hv by assumption.
  assert (Hv' : (if 2 ^ 31 <=? decompress h then -1 else 1)
                * ulps32 (mag32 (decompress h))
                = (if 2 ^ 31 <=? x then -1 else 1) * ulps32 (mag32 x))
    by congruence.
  clear Hv Hy Hs Hf Hhf.
  remember (decompress h) as y eqn:Ey.
  assert (Hgx : 0 <= mag32 x) by (apply Z.mod_pos_bound; lia).
  assert (Hgy : 0 <= mag32 y) by (apply Z.mod_pos_bound; lia).
  destruct (signed_ulps_eq _ _ _ _ (ulps32_nonneg _ Hgx)
              (ulps32_nonneg _ Hgy) Hv')
    as [Hu Hsg].
  apply ulps32_inj in Hu; [|assumption..].
  destruct Hsg as [Hsg | Hz].
  - rewrite (bits_of_sign_mag x y Hx Hyr Hu Hsg), Hc. symmetry. exact Ey.
  - apply ulps32_zero in Hz; [|assumption].
    destruct zero_roundtrips as [Z0 Z1].
    destruct (mag32_zero_cases x Hx Hz) as [-> | ->]; assumption.
Qed.

End HalfCodec.

(** The magnitude bits of a pattern, by its sign bit. *)
Lemma mag32_clear_sign x : 0 <= x < 2 ^ 31 -> mag32 x = x.
Proof. unfold mag32. intros Hx. zlia. Qed.

Lemma mag32_set_sign x : 2 ^ 31 <= x < 2 ^ 32 -> mag32 x = x - 2 ^ 31.
Proof. unfold mag32. intros Hx. zlia. Qed.

(** ** The range quantizer *)

Section Quantizer.

Import FloatCompressor QuantizerForms.

Variables min epsilon max precision : Z.
Hypothesis Hmin : 0 <= min < 2 ^ 32.
Hypothesis Heps : 0 <= epsilon < 2 ^ 32.
Hypothesis Hmax : 0 <= max < 2 ^ 32.
Hypothesis Hvalid : valid_config min epsilon max precision.

(** What the legal values mean for the bit patterns. *)
Lemma valid_config_bits :
  (min = 0 \/ 2 ^ 31 <= min <= 0xFF800000)
  /\ 1 <= epsilon /\ epsilon < max /\ max <= 0x7F800000
  /\ 0 <= precision <= 23.
Proof.
  destruct Hvalid as (H1 & H2 & H3 & H4).
  apply fle_spec in H1; [|assumption|lia].
  apply flt_spec in H2; [|lia|assumption].
  apply flt_spec in H3; [|assumption..].
  unfold nan32, mag32, key32 in *.
  destruct H1 as (N1 & _ & K1), H2 as (_ & N2 & K2), H3 as (_ & N3 & K3).
  apply Z.ltb_ge in N1, N2, N3.
  change (0 <? 2 ^ 31) with true in *. cbv iota in *.
  destruct (Z.ltb_spec min (2 ^ 31)), (Z.ltb_spec epsilon (2 ^ 31)),
    (Z.ltb_spec max (2 ^ 31)); zlia.
Qed.

Lemma negatives_make : (i32 min <? 0) = (2 ^ 31 <=? min).
Proof.
  unfold i32.
  destruct (Z.ltb_spec ((min + 2 ^ 31) mod 2 ^ 32 - 2 ^ 31) 0),
    (Z.leb_spec (2 ^ 31) min); try reflexivity; exfalso; zlia.
Qed.

(** The object built in lossless mode. *)
Lemma make_lossless :
  precision = 23 ->
  make min epsilon max precision =
    Build (2 ^ 31 <=? min) true max (i32 min) epsilon
          (max - 2 ^ 31) (- 2 ^ 31) (epsilon - 1)
          (epsilon - max + 2 ^ 31 - 1) 0.
Proof.
  intros E. destruct valid_config_bits as (Bmin & Be & Bem & Bm & _).
  unfold make. rewrite E.
  change (i32 (23 - 23)) with 0. change (0 =? 0) with true.
  cbv iota beta. rewrite negatives_make.
  rewrite (i32_small epsilon), (i32_small max) by lia.
  unfold signF. change (i32 0x80000000) with (- 2 ^ 31).
  rewrite !lxor_sign_bit by lia.
  destruct (Z.ltb_spec epsilon 0), (Z.ltb_spec max 0); try lia.
  unfold sub. f_equal; unfold i32; zlia.
Qed.

(** The object built in a lossy mode, with [P = 2 ^ shift]. *)
Lemma make_lossy :
  precision < 23 ->
  let P := 2 ^ (23 - precision) in
  make min epsilon max precision =
    Build (2 ^ 31 <=? min) false max (i32 min) epsilon
          (max / P) 0 (epsilon / P - 1)
          (2 ^ 31 / P + epsilon / P - max / P - 1) (23 - precision).
Proof.
  intros Hp P. destruct valid_config_bits as (Bmin & Be & Bem & Bm & Bp).
  unfold make. rewrite (i32_small (23 - precision)) by lia.
  destruct (Z.eqb_spec (23 - precision) 0) as [E | _]; [lia|].
  cbv iota beta. rewrite negatives_make.
  rewrite (i32_small epsilon), (i32_small max) by lia.
  unfold signF. change (i32 0x80000000) with (- 2 ^ 31).
  rewrite lxor_sign_bit by lia.
  destruct (Z.ltb_spec epsilon 0); [lia|].
  unfold shr_u. rewrite !Z.shiftr_div_pow2 by lia. fold P.
  rewrite (u32_small epsilon), (u32_small max) by lia.
  replace (u32 (epsilon - 2 ^ 31)) with (2 ^ 31 + epsilon)
    by (unfold u32; zlia).
  assert (HP : 2 <= P <= 2 ^ 23).
  { subst P. split.
    - change 2 with (2 ^ 1) at 1. apply Z.pow_le_mono_r; lia.
    - apply Z.pow_le_mono_r; lia. }
  assert (HPQ : 2 ^ 31 = 2 ^ (8 + precision) * P).
  { subst P. rewrite <- Z.pow_add_r by lia. f_equal. lia. }
  assert (HQ : 2 ^ 31 / P = 2 ^ (8 + precision))
    by (rewrite HPQ; apply Z.div_mul; lia).
  assert (HQs : (2 ^ 31 + epsilon) / P = 2 ^ 31 / P + epsilon / P).
  { rewrite HQ. rewrite HPQ at 1. apply Z.div_add_l. lia. }
  rewrite HQs, HQ.
  generalize dependent (2 ^ (8 + precision)). intros Q HPQ HQ. clear HQs.
  assert (0 <= epsilon / P <= max / P).
  { split; [apply Z.div_pos; lia | apply Z.div_le_mono; lia]. }
  assert (max / P < Q)
    by (apply Z.div_lt_upper_bound; [lia | nia]).
  assert (Q <= 2 ^ 30) by nia.
  set (fm := i32 min). unfold sub.
  rewrite (i32_small (epsilon / P)), (i32_small (max / P)) by lia.
  rewrite (i32_small (Q + epsilon / P)) by lia.
  rewrite (i32_small (epsilon / P - 0)) by lia.
  rewrite (i32_small (Q + epsilon / P - max / P)) by lia.
  rewrite !i32_small by lia.
  f_equal. lia.
Qed.

Lemma clamp_fields_make :
  clamp_fields min epsilon max (make min epsilon max precision).
Proof.
  destruct valid_config_bits as (_ & _ & _ & _ & Bp).
  destruct (Z.eq_dec precision 23) as [E | E].
  - rewrite make_lossless by assumption. repeat split.
  - pose proof (make_lossy ltac:(lia)) as M. cbv zeta in M. rewrite M.
    repeat split.
Qed.

(** [clamp] on the unsigned bit patterns: positive arguments are cut at
    [max], negative ones at [min] when negatives are representable, and
    magnitudes below [epsilon] become the all-zero pattern. *)
Lemma clamp_unsigned c x :
  clamp_fields min epsilon max c -> 0 <= x < 2 ^ 32 ->
  clamp c x =
    if x <? 2 ^ 31 then
      (if epsilon <=? Z.min x max then Z.min x max else 0)
    else if 2 ^ 31 <=? min then
      (if epsilon <=? Z.min x min - 2 ^ 31 then Z.min x min else 0)
    else
      (if epsilon <=? x - 2 ^ 31 then x else 0).
Proof.
  intros (Fn & Fmax & Fmin & Feps) Hx.
  destruct valid_config_bits as (Bmin & Be & Bem & Bm & _).
  cbv delta [clamp] beta.
  let_step v. let_step max0. let_step max1. let_step v1. let_step v2.
  change absF with (2 ^ 31 - 1) in *.
  assert (E1 : max1 = if (2 ^ 31 <=? min) && (2 ^ 31 <=? x)
                      then min - 2 ^ 32 else max).
  { subst max1 max0 v. rewrite Fn, Fmax, Fmin.
    destruct (Z.leb_spec (2 ^ 31) min); cbn [andb].
    - change (Z.lxor max (Z.land (Z.lxor (i32 min) max)
                                 (neg (b2z (0 >? i32 x)))))
        with (select max (i32 min) (b2z (0 >? i32 x))).
      rewrite select_b2z.
      destruct (Z.gtb_spec 0 (i32 x)), (Z.leb_spec (2 ^ 31) x);
        unfold i32 in *; zlia.
    - reflexivity. }
  clearbody max1. subst max1.
  assert (Ev : v = if x <? 2 ^ 31 then x else x - 2 ^ 32)
    by (subst v; destruct (Z.ltb_spec x (2 ^ 31)); unfold i32; zlia).
  clearbody v. subst v.
  assert (Hland : forall w, Z.land w (2 ^ 31 - 1) = w mod 2 ^ 31)
    by (intros w; apply land_low_mask; lia).
  assert (Hmask : forall w (b : bool),
             Z.land w (neg (b2z b)) = if b then w else 0).
  { intros w b. rewrite neg_b2z. destruct b.
    - apply Z.land_m1_r.
    - apply Z.land_0_r. }
  subst v2. rewrite Hland, Hmask, Feps. subst v1. rewrite select_b2z.
  clear max0.
  destruct (Z.ltb_spec x (2 ^ 31)).
  - replace ((2 ^ 31 <=? min) && (2 ^ 31 <=? x)) with false
      by (symmetry; apply andb_false_iff; right; apply Z.leb_gt; lia).
    destruct (Z.gtb_spec x max).
    + rewrite Z.min_r by lia. rewrite Z.mod_small by lia.
      destruct (Z.leb_spec epsilon max); [apply u32_small; lia | reflexivity].
    + rewrite Z.min_l by lia. rewrite Z.mod_small by lia.
      destruct (Z.leb_spec epsilon x); [apply u32_small; lia | reflexivity].
  - replace (2 ^ 31 <=? x) with true by (symmetry; apply Z.leb_le; lia).
    rewrite andb_true_r.
    destruct (Z.leb_spec (2 ^ 31) min).
    + destruct (Z.gtb_spec (x - 2 ^ 32) (min - 2 ^ 32)).
      * rewrite Z.min_r by lia.
        replace ((min - 2 ^ 32) mod 2 ^ 31) with (min - 2 ^ 31) by zlia.
        destruct (Z.leb_spec epsilon (min - 2 ^ 31));
          [unfold u32; zlia | reflexivity].
      * rewrite Z.min_l by lia.
        replace ((x - 2 ^ 32) mod 2 ^ 31) with (x - 2 ^ 31) by zlia.
        destruct (Z.leb_spec epsilon (x - 2 ^ 31));
          [unfold u32; zlia | reflexivity].
    + destruct (Z.gtb_spec (x - 2 ^ 32) max); [lia|].
      replace ((x - 2 ^ 32) mod 2 ^ 31) with (x - 2 ^ 31) by zlia.
      destruct (Z.leb_spec epsilon (x - 2 ^ 31));
        [unfold u32; zlia | reflexivity].
Qed.

Lemma clamp_clamped c x :
  clamp_fields min epsilon max c -> 0 <= x < 2 ^ 32 ->
  clamped min epsilon max (clamp c x).
Proof.
  intros Fc Hx. rewrite (clamp_unsigned c x Fc Hx).
  destruct valid_config_bits as (Bmin & Be & Bem & Bm & _).
  unfold clamped.
  destruct (Z.ltb_spec x (2 ^ 31)).
  - destruct (Z.leb_spec epsilon (Z.min x max)); lia.
  - destruct (Z.leb_spec (2 ^ 31) min).
    + destruct (Z.leb_spec epsilon (Z.min x min - 2 ^ 31)); lia.
    + destruct (Z.leb_spec epsilon (x - 2 ^ 31)); lia.
Qed.

Lemma clamped_range y : clamped min epsilon max y -> 0 <= y < 2 ^ 32.
Proof.
  destruct valid_config_bits as (Bmin & Be & Bem & Bm & _).
  unfold clamped. lia.
Qed.

(** [clamp] returns a clamped pattern unchanged. *)
Lemma clamp_fixed c y :
  clamp_fields min epsilon max c -> clamped min epsilon max y ->
  clamp c y = y.
Proof.
  intros Fc Hy. rewrite (clamp_unsigned c y Fc (clamped_range y Hy)).
  destruct valid_config_bits as (Bmin & Be & Bem & Bm & _).
  unfold clamped in Hy.
  destruct (Z.ltb_spec y (2 ^ 31)).
  - destruct (Z.leb_spec epsilon (Z.min y max)); lia.
  - destruct (Z.leb_spec (2 ^ 31) min).
    + destruct (Z.leb_spec epsilon (Z.min y min - 2 ^ 31)); lia.
    + destruct (Z.leb_spec epsilon (y - 2 ^ 31)); lia.
Qed.

(** The sign flip of lossless mode, on both views of a pattern. *)
Lemma flip_of_unsigned y :
  0 <= y < 2 ^ 32 -> Z.lxor (i32 y) signF = y - 2 ^ 31.
Proof.
  intros Hy. change signF with (- 2 ^ 31).
  rewrite lxor_sign_bit by apply i32_range.
  destruct (Z.ltb_spec (i32 y) 0); unfold i32 in *; zlia.
Qed.

Lemma flip_to_unsigned v :
  - 2 ^ 31 <= v < 2 ^ 31 -> u32 (Z.lxor v signF) = v + 2 ^ 31.
Proof.
  intros Hv. change signF with (- 2 ^ 31).
  rewrite lxor_sign_bit by assumption.
  destruct (Z.ltb_spec v 0); unfold u32; zlia.
Qed.

Section Lossless.

Variable c : t.
Hypothesis Fc : clamp_fields min epsilon max c.
Hypothesis Fl : lossless c = true.
Hypothesis Fcm : c_max c = max - 2 ^ 31.
Hypothesis Fcz : c_zero c = - 2 ^ 31.
Hypothesis Fpd : p_delta c = epsilon - 1.
Hypothesis Fnd : n_delta c = epsilon - max + 2 ^ 31 - 1.

Ltac lossless_fields :=
  rewrite ?(proj1 Fc), ?Fl, ?Fcm, ?Fcz, ?Fpd, ?Fnd.

Lemma compress_lossless x :
  0 <= x < 2 ^ 32 ->
  compress c x = code_of 1 min epsilon max (clamp c x).
Proof.
  intros Hx. pose proof (clamp_clamped c x Fc Hx) as Hy.
  destruct valid_config_bits as (Bmin & Be & Bem & Bm & _).
  cbv delta [compress] beta.
  let_step v0. let_step v1. let_step v2. let_step v3. let_step v4.
  set (y := clamp c x) in *. clearbody y.
  unfold code_of. rewrite !Z.div_1_r. unfold sub in *.
  settle v1 as (y - 2 ^ 31)
    by (lossless_fields; apply flip_of_unsigned; unfold clamped in Hy; lia).
  clear v0.
  assert (F4 : - 2 ^ 31 <= v3 < 2 ^ 31 -> u32 v4 = v3 + 2 ^ 31)
    by (intros R; subst v4; lossless_fields; apply flip_to_unsigned; exact R).
  clearbody v4.
  destruct Hy as [Hy | [Hy | [Hy | Hy]]].
  - settle v2 as (y - 2 ^ 31)
      by (lossless_fields; destruct (Z.leb_spec (2 ^ 31) min); crunch).
    settle v3 as (y - 2 ^ 31) by (lossless_fields; crunch).
    rewrite F4 by lia.
    destruct (Z.ltb_spec y (2 ^ 31)); [|lia].
    destruct (Z.eqb_spec y 0); lia.
  - settle v2 as (y - 2 ^ 31)
      by (lossless_fields; destruct (Z.leb_spec (2 ^ 31) min); crunch).
    settle v3 as (y - 2 ^ 31 - (epsilon - 1)) by (lossless_fields; crunch).
    rewrite F4 by lia.
    destruct (Z.ltb_spec y (2 ^ 31)); [|lia].
    destruct (Z.eqb_spec y 0); lia.
  - settle v2 as (y - 2 ^ 31 - (epsilon - max + 2 ^ 31 - 1))
      by (lossless_fields; destruct (Z.leb_spec (2 ^ 31) min);
          [crunch | lia]).
    settle v3 as (y - 2 ^ 31 - (epsilon - max + 2 ^ 31 - 1) - (epsilon - 1))
      by (lossless_fields; crunch).
    rewrite F4 by lia.
    destruct (Z.ltb_spec y (2 ^ 31)); [lia|].
    destruct (Z.leb_spec (2 ^ 31) min); lia.
  - settle v2 as (y - 2 ^ 31)
      by (lossless_fields; destruct (Z.leb_spec (2 ^ 31) min);
          [lia | reflexivity]).
    settle v3 as (y - 2 ^ 31 - (epsilon - 1)) by (lossless_fields; crunch).
    rewrite F4 by lia.
    destruct (Z.ltb_spec y (2 ^ 31)); [lia|].
    destruct (Z.leb_spec (2 ^ 31) min); lia.
Qed.

(** In lossless mode decoding returns the clamped pattern. *)
Lemma roundtrip_lossless x :
  0 <= x < 2 ^ 32 ->
  decompress c (compress c x) = clamp c x.
Proof.
  intros Hx. rewrite compress_lossless by assumption.
  pose proof (clamp_clamped c x Fc Hx) as Hy.
  destruct valid_config_bits as (Bmin & Be & Bem & Bm & _).
  set (y := clamp c x) in *. clearbody y.
  unfold code_of. rewrite !Z.div_1_r.
  cbv delta [decompress] beta.
  let_step v0. let_step v1. let_step v2. let_step v3. let_step v4.
  unfold add in *.
  assert (F4 : - 2 ^ 31 <= v3 < 2 ^ 31 -> u32 v4 = v3 + 2 ^ 31)
    by (intros R; subst v4; lossless_fields; apply flip_to_unsigned; exact R).
  clearbody v4.
  destruct Hy as [Hy | [Hy | [Hy | Hy]]].
  - settle v1 as (- 2 ^ 31)
      by (subst v0 y; lossless_fields; reflexivity).
    clear v0.
    settle v2 as (- 2 ^ 31) by (lossless_fields; crunch).
    settle v3 as (- 2 ^ 31)
      by (lossless_fields; destruct (Z.leb_spec (2 ^ 31) min); crunch).
    rewrite F4 by lia. lia.
  - settle v1 as (y - epsilon + 1 - 2 ^ 31)
      by (subst v0; lossless_fields;
          destruct (Z.ltb_spec y (2 ^ 31)); [|lia];
          destruct (Z.eqb_spec y 0); [lia|];
          apply flip_of_unsigned; lia).
    clear v0.
    settle v2 as (y - 2 ^ 31) by (lossless_fields; crunch).
    settle v3 as (y - 2 ^ 31)
      by (lossless_fields; destruct (Z.leb_spec (2 ^ 31) min); crunch).
    rewrite F4 by lia. lia.
  - settle v1 as (y - 2 ^ 31 + max - 2 * epsilon + 2 - 2 ^ 31)
      by (subst v0; lossless_fields;
          destruct (Z.ltb_spec y (2 ^ 31)); [lia|];
          destruct (Z.leb_spec (2 ^ 31) min); [|lia];
          apply flip_of_unsigned; lia).
    clear v0.
    settle v2 as (y - 2 ^ 31 + max - epsilon + 1 - 2 ^ 31)
      by (lossless_fields; crunch).
    settle v3 as (y - 2 ^ 31)
      by (lossless_fields; destruct (Z.leb_spec (2 ^ 31) min);
          [crunch | lia]).
    rewrite F4 by lia. lia.
  - settle v1 as (y - epsilon + 1 - 2 ^ 31)
      by (subst v0; lossless_fields;
          destruct (Z.ltb_spec y (2 ^ 31)); [lia|];
          destruct (Z.leb_spec (2 ^ 31) min); [lia|];
          apply flip_of_unsigned; lia).
    clear v0.
    settle v2 as (y - 2 ^ 31) by (lossless_fields; crunch).
    settle v3 as (y - 2 ^ 31)
      by (lossless_fields; destruct (Z.leb_spec (2 ^ 31) min);
          [lia | reflexivity]).
    rewrite F4 by lia. lia.
Qed.

End Lossless.

Section Lossy.

Variables (c : t) (s P Q : Z).
Hypothesis Hs : 1 <= s <= 23.
Hypothesis HP : P = 2 ^ s.
Hypothesis HQ : 2 ^ 31 = Q * P.
Hypothesis Fc : clamp_fields min epsilon max c.
Hypothesis Fl : lossless c = false.
Hypothesis Fs : shift c = s.
Hypothesis Fcm : c_max c = max / P.
Hypothesis Fcz : c_zero c = 0.
Hypothesis Fpd : p_delta c = epsilon / P - 1.
Hypothesis Fnd : n_delta c = Q + epsilon / P - max / P - 1.

Ltac lossy_fields :=
  rewrite ?(proj1 Fc), ?Fl, ?Fs, ?Fcm, ?Fcz, ?Fpd, ?Fnd.

Lemma lossy_scale : 2 <= P <= 2 ^ 23 /\ 2 ^ 8 <= Q <= 2 ^ 30.
Proof.
  assert (H : 2 <= P <= 2 ^ 23).
  { rewrite HP. split.
    - change 2 with (2 ^ 1) at 1. apply Z.pow_le_mono_r; lia.
    - apply Z.pow_le_mono_r; lia. }
  split; [assumption | nia].
Qed.

(** Quotients by [P] of the quantities of a clamped pattern. *)
Lemma lossy_quotients y :
  clamped min epsilon max y ->
  0 <= epsilon / P <= max / P /\ max / P < Q /\
  0 <= y / P < 2 * Q /\
  (y < 2 ^ 31 -> y / P <= max / P /\ y / P < Q /\
                 (y <> 0 -> epsilon / P <= y / P)) /\
  (2 ^ 31 <= y ->
     y / P = Q + (y - 2 ^ 31) / P /\
     epsilon / P <= (y - 2 ^ 31) / P < Q).
Proof.
  intros Hy. destruct lossy_scale as [BP BQ].
  destruct valid_config_bits as (Bmin & Be & Bem & Bm & _).
  pose proof (clamped_range y Hy) as Ry.
  assert (Hdiv : forall a b, 0 <= a <= b -> 0 <= a / P <= b / P).
  { intros a b Hab. split; [apply Z.div_pos; lia|].
    apply Z.div_le_mono; lia. }
  assert (Hlt : forall a k, 0 <= a < k * P -> a / P < k).
  { intros a k Ha. apply Z.div_lt_upper_bound; lia. }
  split; [apply Hdiv; lia|].
  split; [apply Hlt; lia|].
  split; [split; [apply Z.div_pos; lia | apply Hlt; lia]|].
  split.
  - intros Hpos. unfold clamped in Hy.
    split; [apply Hdiv; lia|]. split; [apply Hlt; lia|].
    intros Hne. apply Hdiv. lia.
  - intros Hneg. unfold clamped in Hy. split.
    + replace y with (Q * P + (y - 2 ^ 31)) at 1 by lia.
      apply Z.div_add_l. lia.
    + split; [apply Hdiv; lia | apply Hlt; lia].
Qed.

Lemma compress_lossy x :
  0 <= x < 2 ^ 32 ->
  compress c x = code_of P min epsilon max (clamp c x).
Proof.
  intros Hx. pose proof (clamp_clamped c x Fc Hx) as Hy.
  destruct lossy_scale as [BP BQ].
  cbv delta [compress] beta.
  let_step v0. let_step v1. let_step v2. let_step v3. let_step v4.
  set (y := clamp c x) in *. clearbody y.
  pose proof (clamped_range y Hy) as Ry.
  destruct (lossy_quotients y Hy) as (Qe & Qm & Qy & Qpos & Qneg).
  unfold code_of, sub in *.
  settle v1 as (y / P)
    by (subst v0; lossy_fields; unfold shr_u;
        rewrite u32_i32, u32_small by lia;
        rewrite Z.shiftr_div_pow2, <- HP by lia; apply i32_small; lia).
  clear v0.
  settle v4 as v3 by (lossy_fields; reflexivity).
  set (pe := epsilon / P) in *. set (qm := max / P) in *.
  set (qy := y / P) in *.
  destruct (Z.ltb_spec y (2 ^ 31)) as [Hpos | Hneg].
  - destruct (Qpos Hpos) as (Q1 & Q2 & Q3). clear Qpos Qneg.
    settle v2 as qy
      by (lossy_fields; fold qm; destruct (Z.leb_spec (2 ^ 31) min); crunch).
    destruct (Z.eqb_spec qy 0) as [E0 | E0].
    + subst v3. lossy_fields. rewrite E0. crunch.
    + assert (y <> 0) by (intros ->; apply E0; apply Z.div_0_l; lia).
      specialize (Q3 ltac:(assumption)).
      subst v3. lossy_fields. fold pe. crunch.
  - destruct (Qneg Hneg) as (Q1 & Q2). clear Qpos Qneg.
    set (qx := (y - 2 ^ 31) / P) in *.
    destruct (Z.leb_spec (2 ^ 31) min) as [Hn | Hn].
    + settle v2 as (qy - (Q + pe - qm - 1))
        by (lossy_fields; fold pe qm;
            destruct (Z.leb_spec (2 ^ 31) min); [crunch | lia]).
      subst v3. lossy_fields. fold pe. crunch.
    + settle v2 as qy
        by (lossy_fields; destruct (Z.leb_spec (2 ^ 31) min);
            [lia | reflexivity]).
      subst v3. lossy_fields. fold pe. crunch.
Qed.

(** In a lossy mode whose [epsilon] is at least one quantization step,
    decoding returns the clamped pattern with its low [shift] bits
    cleared. *)
Lemma roundtrip_lossy x :
  1 <= epsilon / P ->
  0 <= x < 2 ^ 32 ->
  decompress c (compress c x) = clamp c x / P * P.
Proof.
  intros Hpe Hx. rewrite compress_lossy by assumption.
  pose proof (clamp_clamped c x Fc Hx) as Hy.
  destruct lossy_scale as [BP BQ].
  set (y := clamp c x) in *. clearbody y.
  pose proof (clamped_range y Hy) as Ry.
  destruct (lossy_quotients y Hy) as (Qe & Qm & Qy & Qpos & Qneg).
  assert (Hmul : 0 <= y / P * P <= y).
  { pose proof (Z.mul_div_le y P). pose proof (Z.div_pos y P). nia. }
  cbv delta [decompress] beta.
  let_step v0. let_step v1. let_step v2. let_step v3. let_step v4.
  unfold add in *.
  assert (F4 : v3 = y / P -> u32 v4 = y / P * P).
  { intros E. subst v4. lossy_fields. unfold shl_s.
    rewrite u32_i32, Z.shiftl_mul_pow2, <- HP, E by lia.
    apply u32_small. lia. }
  clearbody v4. apply F4. clear F4 v4.
  settle v1 as v0 by (lossy_fields; reflexivity).
  unfold code_of in v0.
  set (pe := epsilon / P) in *. set (qm := max / P) in *.
  set (qy := y / P) in *.
  destruct (Z.ltb_spec y (2 ^ 31)) as [Hpos | Hneg].
  - destruct (Qpos Hpos) as (Q1 & Q2 & Q3). clear Qpos Qneg.
    destruct (Z.eqb_spec qy 0) as [E0 | E0].
    + settle v0 as 0 by reflexivity.
      settle v2 as 0 by (lossy_fields; crunch).
      subst v3. lossy_fields.
      destruct (Z.leb_spec (2 ^ 31) min); crunch.
    + assert (y <> 0) by (intros ->; apply E0; apply Z.div_0_l; lia).
      specialize (Q3 ltac:(assumption)).
      settle v0 as (qy - pe + 1) by (apply i32_small; lia).
      settle v2 as qy by (lossy_fields; fold pe; crunch).
      subst v3. lossy_fields. fold qm.
      destruct (Z.leb_spec (2 ^ 31) min); crunch.
  - destruct (Qneg Hneg) as (Q1 & Q2). clear Qpos Qneg.
    set (qx := (y - 2 ^ 31) / P) in *.
    destruct (Z.leb_spec (2 ^ 31) min) as [Hn | Hn].
    + settle v0 as (qx + qm - 2 * pe + 2) by (apply i32_small; lia).
      settle v2 as (qx + qm - pe + 1) by (lossy_fields; fold pe; crunch).
      subst v3. lossy_fields. fold pe qm.
      destruct (Z.leb_spec (2 ^ 31) min); [crunch | lia].
    + settle v0 as (qy - pe + 1) by (apply i32_small; lia).
      settle v2 as qy by (lossy_fields; fold pe; crunch).
      subst v3. lossy_fields.
      destruct (Z.leb_spec (2 ^ 31) min); [lia | reflexivity].
Qed.

End Lossy.

(** *** The object the constructor builds *)

Lemma lossy_power :
  precision < 23 ->
  1 <= 23 - precision <= 23 /\
  2 ^ 31 = 2 ^ 31 / 2 ^ (23 - precision) * 2 ^ (23 - precision).
Proof.
  intros Hp. destruct valid_config_bits as (_ & _ & _ & _ & Bp).
  split; [lia|].
  replace (2 ^ 31) with (2 ^ (8 + precision) * 2 ^ (23 - precision)) at 1 2
    by (rewrite <- Z.pow_add_r by lia; f_equal; lia).
  rewrite Z.div_mul; [reflexivity|].
  apply Z.pow_nonzero; lia.
Qed.

(** The code [compress] returns, in either mode. *)
Lemma compress_make x :
  0 <= x < 2 ^ 32 ->
  compress (make min epsilon max precision) x
  = code_of (2 ^ (23 - precision)) min epsilon max
      (clamp (make min epsilon max precision) x).
Proof.
  intros Hx. destruct valid_config_bits as (_ & _ & _ & _ & Bp).
  pose proof clamp_fields_make as Fc.
  destruct (Z.eq_dec precision 23) as [E | E].
  - replace (2 ^ (23 - precision)) with 1 by (rewrite E; reflexivity).
    apply compress_lossless; try assumption;
      rewrite make_lossless by assumption; reflexivity.
  - assert (Hp : precision < 23) by lia.
    destruct (lossy_power Hp) as [Hs HQ].
    pose proof (make_lossy Hp) as M. cbv zeta in M.
    apply (compress_lossy (make min epsilon max precision) (23 - precision)
           _ _ Hs eq_refl HQ);
      try assumption; rewrite M; reflexivity.
Qed.

(** Decoding after encoding returns the clamped pattern with its low
    [shift] bits cleared, provided [epsilon] is at least one quantization
    step (which lossless mode always grants). *)
Lemma roundtrip_make x :
  1 <= epsilon / 2 ^ (23 - precision) ->
  0 <= x < 2 ^ 32 ->
  decompress (make min epsilon max precision)
    (compress (make min epsilon max precision) x)
  = clamp (make min epsilon max precision) x
    / 2 ^ (23 - precision) * 2 ^ (23 - precision).
Proof.
  intros He Hx. destruct valid_config_bits as (_ & _ & _ & _ & Bp).
  pose proof clamp_fields_make as Fc.
  destruct (Z.eq_dec precision 23) as [E | E].
  - replace (2 ^ (23 - precision)) with 1 by (rewrite E; reflexivity).
    rewrite Z.div_1_r, Z.mul_1_r.
    apply roundtrip_lossless; try assumption;
      rewrite make_lossless by assumption; reflexivity.
  - assert (Hp : precision < 23) by lia.
    destruct (lossy_power Hp) as [Hs HQ].
    pose proof (make_lossy Hp) as M. cbv zeta in M.
    apply (roundtrip_lossy (make min epsilon max precision) (23 - precision)
           _ _ Hs eq_refl HQ);
      try assumption; rewrite M; reflexivity.
Qed.

(** *** Floats inside the range and outside the dead zone *)

Lemma magnitude_at_least x :
  0 <= x < 2 ^ 32 ->
  fle (f32_of_bits epsilon) (SFabs (f32_of_bits x)) = true ->
  nan32 x = false /\ epsilon <= mag32 x.
Proof.
  intros Hx H. destruct valid_config_bits as (_ & Be & Bem & Bm & _).
  rewrite SFabs_f32_of_bits in H by assumption.
  assert (Hg : 0 <= mag32 x < 2 ^ 31) by (unfold mag32; zlia).
  apply fle_spec in H; [|assumption|lia].
  destruct H as (_ & N & K). unfold nan32, key32 in *.
  replace (mag32 (mag32 x)) with (mag32 x) in N by (unfold mag32; zlia).
  split; [assumption|].
  destruct (Z.ltb_spec epsilon (2 ^ 31)), (Z.ltb_spec (mag32 x) (2 ^ 31)); lia.
Qed.

Lemma in_range_bits x :
  0 <= x < 2 ^ 32 ->
  fle (f32_of_bits min) (f32_of_bits x) = true ->
  fle (f32_of_bits x) (f32_of_bits max) = true ->
  fle (f32_of_bits epsilon) (SFabs (f32_of_bits x)) = true ->
  epsilon <= x <= max \/ (2 ^ 31 <= min /\ 2 ^ 31 + epsilon <= x <= min).
Proof.
  intros Hx Hlo Hhi Hdz.
  destruct valid_config_bits as (Bmin & Be & Bem & Bm & _).
  destruct (magnitude_at_least x Hx Hdz) as [_ Hm].
  apply fle_spec in Hlo, Hhi; try assumption.
  destruct Hlo as (_ & _ & Klo), Hhi as (_ & _ & Khi).
  unfold key32, mag32 in *.
  destruct (Z.ltb_spec min (2 ^ 31)), (Z.ltb_spec x (2 ^ 31)),
    (Z.ltb_spec max (2 ^ 31)); zlia.
Qed.

Lemma in_range_clamped x :
  0 <= x < 2 ^ 32 ->
  fle (f32_of_bits min) (f32_of_bits x) = true ->
  fle (f32_of_bits x) (f32_of_bits max) = true ->
  fle (f32_of_bits epsilon) (SFabs (f32_of_bits x)) = true ->
  clamp (make min epsilon max precision) x = x.
Proof.
  intros Hx Hlo Hhi Hdz. apply clamp_fixed; [apply clamp_fields_make|].
  pose proof (in_range_bits x Hx Hlo Hhi Hdz). unfold clamped. tauto.
Qed.

(** The order of the codes of two patterns inside the range and outside
    the dead zone, with [P = 2 ^ shift]. *)
Lemma code_of_order x1 x2 :
  let P := 2 ^ (23 - precision) in
  (epsilon <= x1 <= max \/ (2 ^ 31 <= min /\ 2 ^ 31 + epsilon <= x1 <= min)) ->
  (epsilon <= x2 <= max \/ (2 ^ 31 <= min /\ 2 ^ 31 + epsilon <= x2 <= min)) ->
  (x1 <= x2 < 2 ^ 31 ->
     code_of P min epsilon max x1 <= code_of P min epsilon max x2)
  /\ (2 ^ 31 <= x1 <= x2 ->
     code_of P min epsilon max x1 <= code_of P min epsilon max x2)
  /\ (x1 < 2 ^ 31 <= x2 ->
     code_of P min epsilon max x1 < code_of P min epsilon max x2)
  /\ (precision = 23 -> x1 <> x2 ->
     code_of P min epsilon max x1 <> code_of P min epsilon max x2).
Proof.
  intros P H1 H2.
  destruct valid_config_bits as (Bmin & Be & Bem & Bm & Bp).
  assert (HP : 0 < P) by (apply Z.pow_pos_nonneg; lia).
  assert (Hdiv : forall a b, 0 <= a <= b -> 0 <= a / P <= b / P).
  { intros a b Hab. split; [apply Z.div_pos; lia|].
    apply Z.div_le_mono; lia. }
  pose proof (Hdiv epsilon max ltac:(lia)) as Qe.
  unfold code_of. repeat split.
  - intros Hord.
    destruct (Z.ltb_spec x1 (2 ^ 31)), (Z.ltb_spec x2 (2 ^ 31)); try lia.
    pose proof (Hdiv epsilon x1 ltac:(lia)).
    pose proof (Hdiv x1 x2 ltac:(lia)).
    destruct (Z.eqb_spec (x1 / P) 0), (Z.eqb_spec (x2 / P) 0); lia.
  - intros Hord.
    destruct (Z.ltb_spec x1 (2 ^ 31)), (Z.ltb_spec x2 (2 ^ 31)); try lia.
    destruct (Z.leb_spec (2 ^ 31) min); [|lia].
    pose proof (Hdiv (x1 - 2 ^ 31) (x2 - 2 ^ 31) ltac:(lia)). lia.
  - intros Hord.
    destruct (Z.ltb_spec x1 (2 ^ 31)), (Z.ltb_spec x2 (2 ^ 31)); try lia.
    destruct (Z.leb_spec (2 ^ 31) min); [|lia].
    pose proof (Hdiv x1 max ltac:(lia)).
    pose proof (Hdiv epsilon (x2 - 2 ^ 31) ltac:(lia)).
    destruct (Z.eqb_spec (x1 / P) 0); lia.
  - intros E Hne. subst P. rewrite E. change (2 ^ (23 - 23)) with 1.
    rewrite !Z.div_1_r.
    destruct (Z.ltb_spec x1 (2 ^ 31)), (Z.ltb_spec x2 (2 ^ 31));
      destruct (Z.leb_spec (2 ^ 31) min);
      destruct (Z.eqb_spec x1 0), (Z.eqb_spec x2 0); lia.
Qed.

(** Where the codes of two patterns of the same sign differ: exactly when
    the patterns differ above their low [shift] bits. *)
Lemma code_of_strict x1 x2 :
  let P := 2 ^ (23 - precision) in
  (epsilon <= x1 <= max \/ (2 ^ 31 <= min /\ 2 ^ 31 + epsilon <= x1 <= min)) ->
  (epsilon <= x2 <= max \/ (2 ^ 31 <= min /\ 2 ^ 31 + epsilon <= x2 <= min)) ->
  (x1 <= x2 < 2 ^ 31 ->
     (code_of P min epsilon max x1 < code_of P min epsilon max x2
      <-> x1 / P < x2 / P))
  /\ (2 ^ 31 <= x1 <= x2 ->
     (code_of P min epsilon max x1 < code_of P min epsilon max x2
      <-> (x1 - 2 ^ 31) / P < (x2 - 2 ^ 31) / P)).
Proof.
  intros P H1 H2.
  destruct valid_config_bits as (Bmin & Be & Bem & Bm & Bp).
  assert (HP : 0 < P) by (apply Z.pow_pos_nonneg; lia).
  assert (Hdiv : forall a b, 0 <= a <= b -> 0 <= a / P <= b / P).
  { intros a b Hab. split; [apply Z.div_pos; lia|].
    apply Z.div_le_mono; lia. }
  pose proof (Hdiv epsilon max ltac:(lia)) as Qe.
  unfold code_of. split.
  - intros Hord.
    destruct (Z.ltb_spec x1 (2 ^ 31)), (Z.ltb_spec x2 (2 ^ 31)); try lia.
    pose proof (Hdiv epsilon x1 ltac:(lia)).
    pose proof (Hdiv x1 x2 ltac:(lia)).
    destruct (Z.eqb_spec (x1 / P) 0), (Z.eqb_spec (x2 / P) 0); lia.
  - intros Hord.
    destruct (Z.ltb_spec x1 (2 ^ 31)), (Z.ltb_spec x2 (2 ^ 31)); try lia.
    destruct (Z.leb_spec (2 ^ 31) min); lia.
Qed.

(** *** Where [clamp] lands *)

Lemma clamp_bounds x :
  0 <= x < 2 ^ 32 ->
  (2 ^ 31 <= min ->
     fle (f32_of_bits min)
         (f32_of_bits (clamp (make min epsilon max precision) x)) = true /\
     fle (f32_of_bits (clamp (make min epsilon max precision) x))
         (f32_of_bits max) = true)
  /\ (min = 0 -> x < 2 ^ 31 ->
     fle (f32_of_bits 0)
         (f32_of_bits (clamp (make min epsilon max precision) x)) = true /\
     fle (f32_of_bits (clamp (make min epsilon max precision) x))
         (f32_of_bits max) = true)
  /\ (min = 0 -> 2 ^ 31 <= x -> epsilon <= mag32 x ->
     clamp (make min epsilon max precision) x = x)
  /\ (mag32 x < epsilon -> clamp (make min epsilon max precision) x = 0).
Proof.
  intros Hx. destruct valid_config_bits as (Bmin & Be & Bem & Bm & _).
  rewrite (clamp_unsigned _ x clamp_fields_make Hx).
  set (y := if x <? 2 ^ 31 then _ else _).
  assert (Hy : (x < 2 ^ 31 /\ (y = 0 \/ epsilon <= y <= max))
               \/ (2 ^ 31 <= x /\ 2 ^ 31 <= min /\
                   (y = 0 \/ 2 ^ 31 + epsilon <= y <= min))
               \/ (2 ^ 31 <= x /\ min = 0 /\
                   (y = 0 \/ (2 ^ 31 + epsilon <= x /\ y = x)))).
  { subst y. destruct (Z.ltb_spec x (2 ^ 31)).
    - destruct (Z.leb_spec epsilon (Z.min x max)); lia.
    - destruct (Z.leb_spec (2 ^ 31) min).
      + destruct (Z.leb_spec epsilon (Z.min x min - 2 ^ 31)); lia.
      + destruct (Z.leb_spec epsilon (x - 2 ^ 31)); lia. }
  assert (Hdz : mag32 x < epsilon -> y = 0).
  { unfold mag32. intros Hm. subst y. destruct (Z.ltb_spec x (2 ^ 31)).
    - destruct (Z.leb_spec epsilon (Z.min x max)); zlia.
    - destruct (Z.leb_spec (2 ^ 31) min).
      + destruct (Z.leb_spec epsilon (Z.min x min - 2 ^ 31)); zlia.
      + destruct (Z.leb_spec epsilon (x - 2 ^ 31)); zlia. }
  assert (Hkeep : min = 0 -> 2 ^ 31 <= x -> epsilon <= mag32 x -> y = x).
  { unfold mag32. intros Hm0 Hn Hm. subst y.
    destruct (Z.ltb_spec x (2 ^ 31)); [lia|].
    destruct (Z.leb_spec (2 ^ 31) min); [lia|].
    destruct (Z.leb_spec epsilon (x - 2 ^ 31)); zlia. }
  clearbody y.
  assert (Hfle : forall a b, 0 <= a < 2 ^ 32 -> 0 <= b < 2 ^ 32 ->
            mag32 a <= 0x7F800000 -> mag32 b <= 0x7F800000 ->
            key32 a <= key32 b ->
            fle (f32_of_bits a) (f32_of_bits b) = true).
  { intros a b Ha Hb Na Nb K. apply fle_spec; try assumption.
    unfold nan32. split; [apply Z.ltb_ge; assumption|].
    split; [apply Z.ltb_ge; assumption | assumption]. }
  split; [|split; [|split; assumption]].
  - intros Hn. split; apply Hfle; unfold mag32, key32; try lia; try zlia.
    + destruct (Z.ltb_spec min (2 ^ 31)), (Z.ltb_spec y (2 ^ 31)); lia.
    + destruct (Z.ltb_spec max (2 ^ 31)), (Z.ltb_spec y (2 ^ 31)); lia.
  - intros Hm0 Hp. split; apply Hfle; unfold mag32, key32; try lia; try zlia.
    + change (0 <? 2 ^ 31) with true. cbv iota.
      destruct (Z.ltb_spec y (2 ^ 31)); lia.
    + destruct (Z.ltb_spec max (2 ^ 31)), (Z.ltb_spec y (2 ^ 31)); lia.
Qed.

(** *** A second round trip *)

(** Clearing the low [shift] bits keeps a clamped pattern clamped when
    [epsilon] has these bits clear. *)
Lemma truncation_clamped y :
  let P := 2 ^ (23 - precision) in
  epsilon mod P = 0 -> clamped min epsilon max y ->
  clamped min epsilon max (y / P * P) /\ 1 <= epsilon / P.
Proof.
  intros P Ha Hy.
  destruct valid_config_bits as (Bmin & Be & Bem & Bm & Bp).
  assert (HP : 0 < P) by (apply Z.pow_pos_nonneg; lia).
  assert (HQ : 2 ^ 31 = 2 ^ (8 + precision) * P)
    by (subst P; rewrite <- Z.pow_add_r by lia; f_equal; lia).
  generalize dependent (2 ^ (8 + precision)). intros Q HQ.
  pose proof (Z.div_mod epsilon P ltac:(lia)) as De. rewrite Ha in De.
  assert (Hmono : forall a, epsilon <= a -> epsilon <= a / P * P <= a).
  { intros a Hle. pose proof (Z.div_le_mono epsilon a P HP Hle).
    pose proof (Z.mul_div_le a P HP). nia. }
  split; [|nia].
  unfold clamped in *. destruct Hy as [Hy | [Hy | [Hy | Hy]]].
  - left. subst y. reflexivity.
  - right; left. pose proof (Hmono y ltac:(lia)). lia.
  - right; right; left. pose proof (Hmono (y - 2 ^ 31) ltac:(lia)) as Hm.
    replace y with (Q * P + (y - 2 ^ 31)) at 1 2 by lia.
    rewrite Z.div_add_l by lia. lia.
  - right; right; right. pose proof (Hmono (y - 2 ^ 31) ltac:(lia)) as Hm.
    replace y with (Q * P + (y - 2 ^ 31)) at 1 2 by lia.
    rewrite Z.div_add_l by lia. lia.
Qed.

Lemma second_roundtrip x :
  epsilon mod 2 ^ (23 - precision) = 0 -> 0 <= x < 2 ^ 32 ->
  decompress (make min epsilon max precision)
    (compress (make min epsilon max precision)
       (decompress (make min epsilon max precision)
          (compress (make min epsilon max precision) x)))
  = decompress (make min epsilon max precision)
      (compress (make min epsilon max precision) x).
Proof.
  intros Ha Hx.
  pose proof (clamp_clamped _ x clamp_fields_make Hx) as Hy.
  destruct (truncation_clamped _ Ha Hy) as [Ht He].
  rewrite (roundtrip_make x He Hx).
  rewrite (roundtrip_make _ He (clamped_range _ Ht)).
  rewrite (clamp_fixed _ _ clamp_fields_make Ht).
  rewrite Z.div_mul; [reflexivity|].
  apply Z.pow_nonzero; destruct valid_config_bits as (_ & _ & _ & _ & Bp); lia.
Qed.

End Quantizer.

(** ** The half-precision special values *)

Section HalfSpecials.

Import Float16Compressor.

Lemma is_nan_f32 x :
  0 <= x < 2 ^ 32 -> is_nan (f32_of_bits x) = nan32 x.
Proof.
  intros Hx. pose proof (f32_of_bits_cases x Hx) as C. cbv zeta in C.
  unfold nan32.
  destruct C as [[G ->] | [[G ->] | [[G ->] | [[G ->] | [G ->]]]]];
    cbn [is_nan]; symmetry;
    first [apply Z.ltb_ge; lia | apply Z.ltb_lt; lia].
Qed.

Lemma is_nan_f16 h :
  0 <= h < 2 ^ 16 -> is_nan (f16_of_bits h) = (0x7C00 <? h mod 2 ^ 15).
Proof.
  intros Hh. pose proof (f16_of_bits_cases h Hh) as C. cbv zeta in C.
  destruct C as [[G ->] | [[G ->] | [[G ->] | [[G ->] | [G ->]]]]];
    cbn [is_nan]; symmetry;
    first [apply Z.ltb_ge; lia | apply Z.ltb_lt; lia].
Qed.

(** Above the largest finite half, up to and including infinity. *)
Lemma compress_overflow x :
  0 <= x < 2 ^ 32 -> 0x477FE000 < mag32 x <= 0x7F800000 ->
  compress x = x / 2 ^ 31 * 2 ^ 15 + 0x7C00.
Proof.
  intros Hx Hg. rewrite compress_from_normal by lia.
  destruct (Z.leb_spec (mag32 x) 0x477FE000); [lia|].
  destruct (Z.leb_spec (mag32 x) 0x7F800000); [reflexivity | lia].
Qed.

(** NaNs: the top ten payload bits survive, an all-zero top becomes 1. *)
Lemma compress_nan x :
  0 <= x < 2 ^ 32 -> 0x7F800000 < mag32 x ->
  compress x =
    x / 2 ^ 31 * 2 ^ 15 + 0x7C00 + Z.max 1 (mant_of 23 x / 2 ^ 13).
Proof.
  intros Hx Hg. rewrite compress_from_normal by lia.
  unfold mag32, mant_of in *.
  destruct (Z.leb_spec (x mod 2 ^ 31) 0x477FE000); [lia|].
  destruct (Z.leb_spec (x mod 2 ^ 31) 0x7F800000); [lia|].
  destruct (Z.ltb_spec (x mod 2 ^ 31) 0x7F802000); zlia.
Qed.

Lemma decompress_nan h :
  0 <= h < 2 ^ 16 -> 0x7C00 < h mod 2 ^ 15 ->
  nan32 (decompress h) = true.
Proof.
  intros Hh Hm. rewrite decompress_from_normal by lia.
  destruct (Z.ltb_spec (h mod 2 ^ 15) 0x7C00); [lia|].
  unfold nan32, mag32. apply Z.ltb_lt. zlia.
Qed.

End HalfSpecials.

(** * The claims of the specification *)

(** ** Half precision *)

(** C1.  Every finite binary32 value of magnitude below 65504 that is
    exactly representable in half precision is returned unchanged, bit for
    bit, by [decompress] after [compress]. *)
Theorem half_roundtrip_of_representable x :
  0 <= x < 2 ^ 32 ->
  is_finite (f32_of_bits x) = true ->
  flt (SFabs (f32_of_bits x)) (f32_of_bits 0x477FE000) = true ->
  half_representable x ->
  Float16Compressor.decompress (Float16Compressor.compress x) = x.
Proof.
  intros Hx Hf _ Hr. apply representable_roundtrip; assumption.
Qed.

Lemma half_roundtrip_of_representable_witness :
  Float16Compressor.decompress (Float16Compressor.compress 0xC4800000)
  = 0xC4800000.
Proof.
  apply half_roundtrip_of_representable.
  - lia.
  - vm_compute. reflexivity.
  - vm_compute. reflexivity.
  - exists 0xE400. split; [lia|]. split; vm_compute; reflexivity.
Defined.

(** C5, as the code has it.  Every value whose magnitude is strictly above
    the largest finite half, 65504, infinities included, is encoded as the
    half infinity with its sign; its magnitude encodes like plus infinity,
    and the code of plus infinity decodes to plus infinity.  (65504 itself
    is encoded as the largest finite half.) *)
Theorem compress_above_half_max_is_infinity x :
  0 <= x < 2 ^ 32 ->
  flt (f32_of_bits 0x477FE000) (SFabs (f32_of_bits x)) = true ->
  Float16Compressor.compress x = sign_field 8 23 x * 2 ^ 15 + 0x7C00
  /\ Float16Compressor.compress (mag32 x)
     = Float16Compressor.compress 0x7F800000
  /\ Float16Compressor.decompress (Float16Compressor.compress 0x7F800000)
     = 0x7F800000
  /\ Float16Compressor.compress 0x477FE000 = 0x7BFF.
Proof.
  intros Hx H. rewrite SFabs_f32_of_bits in H by assumption.
  assert (Hg : 0 <= mag32 x < 2 ^ 31) by (unfold mag32; zlia).
  apply flt_spec in H; [|lia..].
  destruct H as (_ & N & K). unfold nan32 in N. apply Z.ltb_ge in N.
  assert (Hgg : mag32 (mag32 x) = mag32 x) by (unfold mag32; zlia).
  rewrite Hgg in N. unfold key32 in K.
  change (0x477FE000 <? 2 ^ 31) with true in K. cbv iota in K.
  destruct (Z.ltb_spec (mag32 x) (2 ^ 31)); [|lia].
  split; [|split; [|split]].
  - rewrite compress_overflow by lia. unfold sign_field.
    change (2 ^ (8 + 23)) with (2 ^ 31). zlia.
  - rewrite (compress_overflow (mag32 x)) by lia.
    replace (mag32 x / 2 ^ 31) with 0 by zlia. reflexivity.
  - vm_compute. reflexivity.
  - vm_compute. reflexivity.
Qed.

Lemma compress_above_half_max_is_infinity_witness :
  Float16Compressor.compress 0xC7800000
  = sign_field 8 23 0xC7800000 * 2 ^ 15 + 0x7C00
  /\ Float16Compressor.compress (mag32 0xC7800000)
     = Float16Compressor.compress 0x7F800000
  /\ Float16Compressor.decompress (Float16Compressor.compress 0x7F800000)
     = 0x7F800000
  /\ Float16Compressor.compress 0x477FE000 = 0x7BFF.
Proof.
  apply compress_above_half_max_is_infinity.
  - lia.
  - vm_compute. reflexivity.
Defined.

(** C5 as stated fails at 65504 itself: it is finite, its magnitude is at
    least 65504, and it is encoded as the largest finite half [0x7BFF],
    not as infinity [0x7C00]. *)
Lemma compress_half_max_stays_finite :
  is_finite (f32_of_bits 0x477FE000) = true
  /\ fle (f32_of_bits 0x477FE000) (SFabs (f32_of_bits 0x477FE000)) = true
  /\ Float16Compressor.compress 0x477FE000 = 0x7BFF
  /\ Float16Compressor.compress 0x477FE000 <> 0x7C00.
Proof.
  repeat split; try (vm_compute; reflexivity). vm_compute. discriminate.
Qed.

(** C6, as the code has it.  Every NaN is encoded as a half NaN with its
    sign: exponent field 31 and, as significand, the top ten bits of the
    NaN's significand, or 1 when these are all zero (the minimum NaN
    pattern); decoding the result gives a binary32 NaN. *)
Theorem compress_nan_is_half_nan x :
  0 <= x < 2 ^ 32 ->
  is_nan (f32_of_bits x) = true ->
  Float16Compressor.compress x
  = sign_field 8 23 x * 2 ^ 15 + 0x7C00 + Z.max 1 (mant_of 23 x / 2 ^ 13)
  /\ is_nan (f16_of_bits (Float16Compressor.compress x)) = true
  /\ is_nan (f32_of_bits
               (Float16Compressor.decompress (Float16Compressor.compress x)))
     = true.
Proof.
  intros Hx H. rewrite is_nan_f32 in H by assumption.
  unfold nan32 in H. apply Z.ltb_lt in H.
  pose proof (compress_nan x Hx H) as E.
  pose proof (compress_range x) as R.
  assert (Hm : 0x7C00 < Float16Compressor.compress x mod 2 ^ 15).
  { rewrite E. unfold mant_of, mag32 in *. zlia. }
  split; [|split].
  - rewrite E. unfold sign_field. change (2 ^ (8 + 23)) with (2 ^ 31).
    f_equal. f_equal. zlia.
  - rewrite is_nan_f16 by assumption. apply Z.ltb_lt. assumption.
  - rewrite is_nan_f32 by apply decompress_range.
    apply decompress_nan; assumption.
Qed.

Lemma compress_nan_is_half_nan_witness :
  Float16Compressor.compress 0xFFC00001
  = sign_field 8 23 0xFFC00001 * 2 ^ 15 + 0x7C00
    + Z.max 1 (mant_of 23 0xFFC00001 / 2 ^ 13)
  /\ is_nan (f16_of_bits (Float16Compressor.compress 0xFFC00001)) = true
  /\ is_nan (f32_of_bits
               (Float16Compressor.decompress
                  (Float16Compressor.compress 0xFFC00001)))
     = true.
Proof.
  apply compress_nan_is_half_nan.
  - lia.
  - vm_compute. reflexivity.
Defined.

(** C6 as stated fails on the default quiet NaN: its code is [0x7E00], not
    the minimum half NaN [0x7C01]. *)
Lemma compress_quiet_nan_not_minimum :
  is_nan (f32_of_bits 0x7FC00000) = true
  /\ Float16Compressor.compress 0x7FC00000 = 0x7E00
  /\ Float16Compressor.compress 0x7FC00000 <> 0x7C01.
Proof.
  repeat split; try (vm_compute; reflexivity). vm_compute. discriminate.
Qed.

(** ** The range quantizer *)

(** C2.  In lossless mode ([precision = 23]) with legal bounds, every value
    inside [min, max] whose magnitude is at least [epsilon] is returned bit
    for bit by [decompress] after [compress]. *)
Theorem lossless_roundtrip_in_range min epsilon max x :
  0 <= min < 2 ^ 32 -> 0 <= epsilon < 2 ^ 32 -> 0 <= max < 2 ^ 32 ->
  0 <= x < 2 ^ 32 ->
  FloatCompressor.valid_config min epsilon max 23 ->
  fle (f32_of_bits min) (f32_of_bits x) = true ->
  fle (f32_of_bits x) (f32_of_bits max) = true ->
  fle (f32_of_bits epsilon) (SFabs (f32_of_bits x)) = true ->
  let c := FloatCompressor.make min epsilon max 23 in
  FloatCompressor.decompress c (FloatCompressor.compress c x) = x.
Proof.
  intros Hmin Heps Hmax Hx Hv Hlo Hhi Hdz c. subst c.
  destruct (valid_config_bits _ _ _ _ Hmin Heps Hmax Hv) as (_ & Be & _).
  rewrite (roundtrip_make _ _ _ _ Hmin Heps Hmax Hv x);
    [|rewrite Z.div_1_r; lia|assumption].
  rewrite (in_range_clamped _ _ _ _ Hmin Heps Hmax Hv x) by assumption.
  change (2 ^ (23 - 23)) with 1. rewrite Z.div_1_r. lia.
Qed.

Lemma lossless_roundtrip_in_range_witness :
  let c := FloatCompressor.make 0xC77FE000 0x38800000 0x477FE000 23 in
  FloatCompressor.decompress c (FloatCompressor.compress c 0xC4353F5C)
  = 0xC4353F5C.
Proof.
  apply lossless_roundtrip_in_range; try lia; try (vm_compute; reflexivity).
  unfold FloatCompressor.valid_config.
  repeat split; try (vm_compute; reflexivity); lia.
Defined.

(** C3, as the code has it.  For legal bounds and two values [x1 < x2] inside
    [min, max] and outside the dead zone, the codes follow the magnitudes
    on each sign: for positive values [compress x1 <= compress x2], for
    negative values the order is reversed, [compress x2 <= compress x1];
    in both cases the inequality is strict exactly when the magnitudes
    differ above their low [23 - precision] bits, hence always when
    [precision = 23]; and every negative value has a larger code than
    every positive one. *)
Theorem compress_order_by_sign min epsilon max precision x1 x2 :
  0 <= min < 2 ^ 32 -> 0 <= epsilon < 2 ^ 32 -> 0 <= max < 2 ^ 32 ->
  0 <= x1 < 2 ^ 32 -> 0 <= x2 < 2 ^ 32 ->
  FloatCompressor.valid_config min epsilon max precision ->
  fle (f32_of_bits min) (f32_of_bits x1) = true ->
  fle (f32_of_bits x1) (f32_of_bits max) = true ->
  fle (f32_of_bits epsilon) (SFabs (f32_of_bits x1)) = true ->
  fle (f32_of_bits min) (f32_of_bits x2) = true ->
  fle (f32_of_bits x2) (f32_of_bits max) = true ->
  fle (f32_of_bits epsilon) (SFabs (f32_of_bits x2)) = true ->
  flt (f32_of_bits x1) (f32_of_bits x2) = true ->
  let c := FloatCompressor.make min epsilon max precision in
  (flt (f32_of_bits 0) (f32_of_bits x1) = true ->
     FloatCompressor.compress c x1 <= FloatCompressor.compress c x2
     /\ (FloatCompressor.compress c x1 < FloatCompressor.compress c x2
         <-> mag32 x1 / 2 ^ (23 - precision)
             < mag32 x2 / 2 ^ (23 - precision))
     /\ (precision = 23 ->
         FloatCompressor.compress c x1 < FloatCompressor.compress c x2))
  /\ (flt (f32_of_bits x2) (f32_of_bits 0) = true ->
     FloatCompressor.compress c x2 <= FloatCompressor.compress c x1
     /\ (FloatCompressor.compress c x2 < FloatCompressor.compress c x1
         <-> mag32 x2 / 2 ^ (23 - precision)
             < mag32 x1 / 2 ^ (23 - precision))
     /\ (precision = 23 ->
         FloatCompressor.compress c x2 < FloatCompressor.compress c x1))
  /\ (flt (f32_of_bits x1) (f32_of_bits 0) = true ->
      flt (f32_of_bits 0) (f32_of_bits x2) = true ->
      FloatCompressor.compress c x2 < FloatCompressor.compress c x1).
Proof.
  intros Hmin Heps Hmax Hx1 Hx2 Hv L1 U1 D1 L2 U2 D2 Hlt c. subst c.
  rewrite !(compress_make _ _ _ _ Hmin Heps Hmax Hv) by assumption.
  rewrite !(in_range_clamped _ _ _ _ Hmin Heps Hmax Hv) by assumption.
  pose proof (in_range_bits _ _ _ _ Hmin Heps Hmax Hv x1 Hx1 L1 U1 D1) as B1.
  pose proof (in_range_bits _ _ _ _ Hmin Heps Hmax Hv x2 Hx2 L2 U2 D2) as B2.
  destruct (valid_config_bits _ _ _ _ Hmin Heps Hmax Hv)
    as (Bmin & Be & Bem & Bm & Bp).
  pose proof (code_of_order _ _ _ _ Hmin Heps Hmax Hv x1 x2 B1 B2) as O12.
  pose proof (code_of_order _ _ _ _ Hmin Heps Hmax Hv x2 x1 B2 B1) as O21.
  pose proof (code_of_strict _ _ _ _ Hmin Heps Hmax Hv x1 x2 B1 B2) as S12.
  pose proof (code_of_strict _ _ _ _ Hmin Heps Hmax Hv x2 x1 B2 B1) as S21.
  cbv zeta in O12, O21, S12, S21.
  destruct O12 as (Pa & Na & Ca & Ia), O21 as (Pb & Nb & Cb & Ib).
  destruct S12 as (SPa & _), S21 as (_ & SNb).
  apply flt_spec in Hlt; [|assumption..]. destruct Hlt as (_ & _ & K).
  assert (Hz : forall x, 0 <= x < 2 ^ 32 ->
            (flt (f32_of_bits 0) (f32_of_bits x) = true -> 0 < x < 2 ^ 31)
            /\ (flt (f32_of_bits x) (f32_of_bits 0) = true -> 2 ^ 31 < x)).
  { intros x Hx. split; intros H; apply flt_spec in H; try lia;
      destruct H as (_ & _ & H); unfold key32 in H;
      change (0 <? 2 ^ 31) with true in H; cbv iota in H;
      destruct (Z.ltb_spec x (2 ^ 31)); lia. }
  destruct (Hz x1 Hx1) as [P1 N1], (Hz x2 Hx2) as [P2 N2]. clear Hz.
  pose proof mag32_clear_sign as Hpm. pose proof mag32_set_sign as Hnm.
  unfold key32 in K.
  split; [|split].
  - intros H. specialize (P1 H).
    destruct (Z.ltb_spec x1 (2 ^ 31)), (Z.ltb_spec x2 (2 ^ 31)); try lia.
    rewrite !Hpm by lia.
    split; [apply Pa; lia|]. split; [apply SPa; lia|].
    intros E. specialize (Ia E). specialize (Pa ltac:(lia)). lia.
  - intros H. specialize (N2 H).
    destruct (Z.ltb_spec x1 (2 ^ 31)), (Z.ltb_spec x2 (2 ^ 31)); try lia.
    rewrite !Hnm by lia.
    split; [apply Nb; lia|]. split; [apply SNb; lia|].
    intros E. specialize (Ib E). specialize (Nb ltac:(lia)). lia.
  - intros H1 H2. specialize (N1 H1). specialize (P2 H2).
    apply Cb. lia.
Qed.

Lemma compress_order_by_sign_witness :
  let c := FloatCompressor.make 0xC77FE000 0x38800000 0x477FE000 12 in
  (flt (f32_of_bits 0) (f32_of_bits 0x3F800000) = true ->
     FloatCompressor.compress c 0x3F800000
     <= FloatCompressor.compress c 0x40000000
     /\ (FloatCompressor.compress c 0x3F800000
         < FloatCompressor.compress c 0x40000000
         <-> mag32 0x3F800000 / 2 ^ (23 - 12)
             < mag32 0x40000000 / 2 ^ (23 - 12))
     /\ (12 = 23 ->
         FloatCompressor.compress c 0x3F800000
         < FloatCompressor.compress c 0x40000000))
  /\ (flt (f32_of_bits 0x40000000) (f32_of_bits 0) = true ->
     FloatCompressor.compress c 0x40000000
     <= FloatCompressor.compress c 0x3F800000
     /\ (FloatCompressor.compress c 0x40000000
         < FloatCompressor.compress c 0x3F800000
         <-> mag32 0x40000000 / 2 ^ (23 - 12)
             < mag32 0x3F800000 / 2 ^ (23 - 12))
     /\ (12 = 23 ->
         FloatCompressor.compress c 0x40000000
         < FloatCompressor.compress c 0x3F800000))
  /\ (flt (f32_of_bits 0x3F800000) (f32_of_bits 0) = true ->
      flt (f32_of_bits 0) (f32_of_bits 0x40000000) = true ->
      FloatCompressor.compress c 0x40000000
      < FloatCompressor.compress c 0x3F800000).
Proof.
  apply compress_order_by_sign; try lia; try (vm_compute; reflexivity).
  unfold FloatCompressor.valid_config.
  repeat split; try (vm_compute; reflexivity); lia.
Defined.

(** C3 as stated fails in the configuration of the demonstration program:
    [-2.0 < -1.0], both inside the range and outside the dead zone, yet the
    code of [-2.0] is the larger one; and [1.0] and its successor, in this
    order, get the same code. *)
Lemma compress_not_monotonic :
  let c := FloatCompressor.make 0xC77FE000 0x38800000 0x477FE000 12 in
  FloatCompressor.valid_config 0xC77FE000 0x38800000 0x477FE000 12
  /\ flt (f32_of_bits 0xC0000000) (f32_of_bits 0xBF800000) = true
  /\ fle (f32_of_bits 0xC77FE000) (f32_of_bits 0xC0000000) = true
  /\ fle (f32_of_bits 0xBF800000) (f32_of_bits 0x477FE000) = true
  /\ fle (f32_of_bits 0x38800000) (SFabs (f32_of_bits 0xC0000000)) = true
  /\ fle (f32_of_bits 0x38800000) (SFabs (f32_of_bits 0xBF800000)) = true
  /\ ~ FloatCompressor.compress c 0xC0000000
       < FloatCompressor.compress c 0xBF800000
  /\ flt (f32_of_bits 0x3F800000) (f32_of_bits 0x3F800001) = true
  /\ ~ FloatCompressor.compress c 0x3F800000
       < FloatCompressor.compress c 0x3F800001.
Proof.
  cbv zeta. unfold FloatCompressor.valid_config.
  repeat split; try (vm_compute; reflexivity); try lia;
    vm_compute; discriminate.
Qed.

(** C4, as the code has it.  For legal bounds and every argument: when
    negatives are representable the result of [clamp] lies in [min, max];
    when they are not, the result lies in [0, max] for every argument whose
    sign bit is clear, while an argument whose sign bit is set and whose
    magnitude is at least [epsilon] is returned unchanged; and every
    argument of magnitude below [epsilon] gives the all-zero pattern,
    plus zero, whatever its sign. *)
Theorem clamp_range_and_dead_zone min epsilon max precision x :
  0 <= min < 2 ^ 32 -> 0 <= epsilon < 2 ^ 32 -> 0 <= max < 2 ^ 32 ->
  0 <= x < 2 ^ 32 ->
  FloatCompressor.valid_config min epsilon max precision ->
  let c := FloatCompressor.make min epsilon max precision in
  (FloatCompressor.negatives c = true ->
     fle (f32_of_bits min) (f32_of_bits (FloatCompressor.clamp c x)) = true
     /\ fle (f32_of_bits (FloatCompressor.clamp c x)) (f32_of_bits max) = true)
  /\ (FloatCompressor.negatives c = false -> x < 2 ^ 31 ->
     fle (f32_of_bits 0) (f32_of_bits (FloatCompressor.clamp c x)) = true
     /\ fle (f32_of_bits (FloatCompressor.clamp c x)) (f32_of_bits max) = true)
  /\ (FloatCompressor.negatives c = false -> 2 ^ 31 <= x ->
      fle (f32_of_bits epsilon) (SFabs (f32_of_bits x)) = true ->
      FloatCompressor.clamp c x = x)
  /\ (flt (SFabs (f32_of_bits x)) (f32_of_bits epsilon) = true ->
      FloatCompressor.clamp c x = 0).
Proof.
  intros Hmin Heps Hmax Hx Hv c. subst c.
  destruct (valid_config_bits _ _ _ _ Hmin Heps Hmax Hv)
    as (Bmin & Be & Bem & Bm & Bp).
  destruct (clamp_fields_make _ _ _ _ Hmin Heps Hmax Hv) as (Fn & _).
  destruct (clamp_bounds _ _ _ _ Hmin Heps Hmax Hv x Hx) as (C1 & C2 & C3 & C4).
  rewrite Fn.
  split; [|split; [|split]].
  - intros N. apply Z.leb_le in N. apply C1. assumption.
  - intros N Hp. apply Z.leb_gt in N. apply C2; lia.
  - intros N Hn D. apply Z.leb_gt in N. apply C3; try lia.
    apply (magnitude_at_least _ _ _ _ Hmin Heps Hmax Hv x Hx D).
  - intros D. apply C4. rewrite SFabs_f32_of_bits in D by assumption.
    assert (Hg : 0 <= mag32 x < 2 ^ 31) by (unfold mag32; zlia).
    apply flt_spec in D; [|lia|assumption].
    destruct D as (_ & _ & K). unfold key32 in K.
    destruct (Z.ltb_spec (mag32 x) (2 ^ 31)), (Z.ltb_spec epsilon (2 ^ 31));
      lia.
Qed.

Lemma clamp_range_and_dead_zone_witness :
  let c := FloatCompressor.make 0xC77FE000 0x38800000 0x477FE000 12 in
  (FloatCompressor.negatives c = true ->
     fle (f32_of_bits 0xC77FE000)
         (f32_of_bits (FloatCompressor.clamp c 0xC8000000)) = true
     /\ fle (f32_of_bits (FloatCompressor.clamp c 0xC8000000))
            (f32_of_bits 0x477FE000) = true)
  /\ (FloatCompressor.negatives c = false -> 0xC8000000 < 2 ^ 31 ->
     fle (f32_of_bits 0)
         (f32_of_bits (FloatCompressor.clamp c 0xC8000000)) = true
     /\ fle (f32_of_bits (FloatCompressor.clamp c 0xC8000000))
            (f32_of_bits 0x477FE000) = true)
  /\ (FloatCompressor.negatives c = false -> 2 ^ 31 <= 0xC8000000 ->
      fle (f32_of_bits 0x38800000) (SFabs (f32_of_bits 0xC8000000)) = true ->
      FloatCompressor.clamp c 0xC8000000 = 0xC8000000)
  /\ (flt (SFabs (f32_of_bits 0xC8000000)) (f32_of_bits 0x38800000) = true ->
      FloatCompressor.clamp c 0xC8000000 = 0).
Proof.
  apply clamp_range_and_dead_zone; try lia.
  unfold FloatCompressor.valid_config.
  repeat split; try (vm_compute; reflexivity); lia.
Defined.

(** C4 as stated fails twice.  With [min = +0.0] (negatives not
    representable) [clamp] returns [-1.0] unchanged, below the claimed
    range [0, max]; and a negative value of magnitude below [epsilon] gives
    plus zero, not a zero carrying its sign. *)
Lemma clamp_outside_claimed_range :
  FloatCompressor.valid_config 0 0x38800000 0x477FE000 12
  /\ FloatCompressor.clamp
       (FloatCompressor.make 0 0x38800000 0x477FE000 12) 0xBF800000
     = 0xBF800000
  /\ fle (f32_of_bits 0) (f32_of_bits 0xBF800000) = false
  /\ FloatCompressor.valid_config 0xC77FE000 0x38800000 0x477FE000 12
  /\ flt (SFabs (f32_of_bits 0x80000001)) (f32_of_bits 0x38800000) = true
  /\ FloatCompressor.clamp
       (FloatCompressor.make 0xC77FE000 0x38800000 0x477FE000 12) 0x80000001
     = 0
  /\ sign_of 8 23 0x80000001 = true /\ sign_of 8 23 0 = false.
Proof.
  unfold FloatCompressor.valid_config.
  repeat split; try (vm_compute; reflexivity); lia.
Qed.

(** ** The 18-bit microfloat *)

(** C7.  A binary32 pattern whose exponent field lies in the window the
    five exponent bits can hold, [0x70 .. 0x70 + 31], and whose eleven low
    significand bits are zero, is returned bit for bit by [decompress18]
    after [compress18]. *)
Theorem microfloat_roundtrip_in_window x :
  0 <= x < 2 ^ 32 ->
  0x70 <= expo_of 8 23 x <= 0x70 + 31 ->
  mant_of 23 x mod 2 ^ 11 = 0 ->
  decompress18 (compress18 x) = x.
Proof.
  intros Hx He Hm. apply roundtrip18_window; [assumption | lia | assumption].
Qed.

Lemma microfloat_roundtrip_in_window_witness :
  decompress18 (compress18 0xC4353800) = 0xC4353800.
Proof.
  apply microfloat_roundtrip_in_window.
  - lia.
  - vm_compute. split; discriminate.
  - vm_compute. reflexivity.
Defined.

(** The window is not the one centred on the bias, [0x70 - 15 .. 0x70 + 16]:
    a pattern with exponent field [0x70 - 15] and zero low bits is not
    returned. *)
Lemma microfloat_below_window_wraps :
  expo_of 8 23 0x30800000 = 0x70 - 15
  /\ mant_of 23 0x30800000 mod 2 ^ 11 = 0
  /\ decompress18 (compress18 0x30800000) = 0xC0800000.
Proof. repeat split; vm_compute; reflexivity. Qed.

(** C8, as the code has it.  For every argument the twelve low bits of the
    result are the twelve high bits of the significand, and bits 12 to 16
    are the five low bits of the exponent field minus [0x70]; when the
    exponent field lies in [0x70 .. 0x70 + 31], bit 17 is the sign and no
    higher bit is set.  (Outside the window the wrapped exponent spills
    into bit 17 and above.) *)
Theorem compress18_layout x :
  0 <= x < 2 ^ 32 ->
  compress18 x mod 2 ^ 12 = mant_of 23 x / 2 ^ 11
  /\ (compress18 x / 2 ^ 12) mod 2 ^ 5 = (expo_of 8 23 x - 0x70) mod 2 ^ 5
  /\ (0x70 <= expo_of 8 23 x <= 0x70 + 31 ->
      compress18 x / 2 ^ 17 = sign_field 8 23 x
      /\ 0 <= compress18 x < 2 ^ 18).
Proof.
  intros Hx. destruct (compress18_low_fields x Hx) as [Hm He].
  split; [assumption|]. split; [assumption|].
  intros Hw. rewrite compress18_fields by (assumption || lia).
  unfold expo_of, sign_field in *. change (2 ^ (8 + 23)) with (2 ^ 31).
  zlia.
Qed.

Lemma compress18_layout_witness :
  compress18 0xC4353F5C mod 2 ^ 12 = mant_of 23 0xC4353F5C / 2 ^ 11
  /\ (compress18 0xC4353F5C / 2 ^ 12) mod 2 ^ 5
     = (expo_of 8 23 0xC4353F5C - 0x70) mod 2 ^ 5
  /\ (0x70 <= expo_of 8 23 0xC4353F5C <= 0x70 + 31 ->
      compress18 0xC4353F5C / 2 ^ 17 = sign_field 8 23 0xC4353F5C
      /\ 0 <= compress18 0xC4353F5C < 2 ^ 18).
Proof. apply compress18_layout. lia. Defined.

(** C8 as stated fails on plus zero: its exponent field, 0, is below the
    window, and the result has bits above bit 17 set. *)
Lemma compress18_zero_sets_high_bits :
  compress18 0 = 0xFFF90000 /\ ~ compress18 0 < 2 ^ 18
  /\ Z.testbit (compress18 0) 31 = true.
Proof.
  repeat split; try (vm_compute; reflexivity). vm_compute. discriminate.
Qed.

(** ** Second round trips *)

(** C9, as the code has it.  A second round trip changes nothing for the
    half-precision codec, for the 18-bit microfloat, and for a range
    quantizer with legal bounds whose [epsilon] has its [23 - precision]
    low bits clear (always so in lossless mode), on every argument. *)
Theorem second_roundtrip_idempotent min epsilon max precision x :
  0 <= min < 2 ^ 32 -> 0 <= epsilon < 2 ^ 32 -> 0 <= max < 2 ^ 32 ->
  0 <= x < 2 ^ 32 ->
  FloatCompressor.valid_config min epsilon max precision ->
  epsilon mod 2 ^ (23 - precision) = 0 ->
  let c := FloatCompressor.make min epsilon max precision in
  Float16Compressor.decompress
    (Float16Compressor.compress
       (Float16Compressor.decompress (Float16Compressor.compress x)))
  = Float16Compressor.decompress (Float16Compressor.compress x)
  /\ FloatCompressor.decompress c
       (FloatCompressor.compress c
          (FloatCompressor.decompress c (FloatCompressor.compress c x)))
     = FloatCompressor.decompress c (FloatCompressor.compress c x)
  /\ decompress18 (compress18 (decompress18 (compress18 x)))
     = decompress18 (compress18 x).
Proof.
  intros Hmin Heps Hmax Hx Hv Ha c. subst c. split; [|split].
  - rewrite compress_decompress by apply compress_range. reflexivity.
  - apply second_roundtrip; assumption.
  - destruct (decompress18_in_window (compress18 x)) as (R & E & M).
    apply roundtrip18_window; assumption.
Qed.

Lemma second_roundtrip_idempotent_witness :
  let c := FloatCompressor.make 0xC77FE000 0x38800000 0x477FE000 12 in
  Float16Compressor.decompress
    (Float16Compressor.compress
       (Float16Compressor.decompress (Float16Compressor.compress 0xC4353F5C)))
  = Float16Compressor.decompress (Float16Compressor.compress 0xC4353F5C)
  /\ FloatCompressor.decompress c
       (FloatCompressor.compress c
          (FloatCompressor.decompress c
             (FloatCompressor.compress c 0xC4353F5C)))
     = FloatCompressor.decompress c (FloatCompressor.compress c 0xC4353F5C)
  /\ decompress18 (compress18 (decompress18 (compress18 0xC4353F5C)))
     = decompress18 (compress18 0xC4353F5C).
Proof.
  apply second_roundtrip_idempotent; try lia; try (vm_compute; reflexivity).
  unfold FloatCompressor.valid_config.
  repeat split; try (vm_compute; reflexivity); lia.
Defined.

(** C9 as stated fails for a range quantizer whose [epsilon] is not on the
    quantization grid: with legal bounds, [precision = 12] and [epsilon]
    one unit above 2^-14, the value [epsilon] decodes to 2^-14, which lies
    in the dead zone, so the second round trip gives zero. *)
Lemma second_roundtrip_changes_value :
  let c := FloatCompressor.make 0xC77FE000 0x38800001 0x477FE000 12 in
  FloatCompressor.valid_config 0xC77FE000 0x38800001 0x477FE000 12
  /\ FloatCompressor.decompress c (FloatCompressor.compress c 0x38800001)
     = 0x38800000
  /\ FloatCompressor.decompress c
       (FloatCompressor.compress c
          (FloatCompressor.decompress c
             (FloatCompressor.compress c 0x38800001)))
     = 0
  /\ FloatCompressor.decompress c
       (FloatCompressor.compress c
          (FloatCompressor.decompress c
             (FloatCompressor.compress c 0x38800001)))
     <> FloatCompressor.decompress c (FloatCompressor.compress c 0x38800001).
Proof.
  cbv zeta. unfold FloatCompressor.valid_config.
  repeat split; try (vm_compute; reflexivity); try lia.
  vm_compute. discriminate.
Qed.

(** ** Construction *)

(** C10, as the code has it.  The constructor checks nothing and never
    fails: for all arguments, legal or not, it completes and yields the
    object whose fields are computed from the arguments as given. *)
Theorem construct_never_rejects min epsilon max precision :
  FloatCompressor.construct min epsilon max precision
  = FloatCompressor.Constructed
      (FloatCompressor.make min epsilon max precision)
  /\ (forall message,
        FloatCompressor.construct min epsilon max precision
        <> FloatCompressor.Rejected message)
  /\ (let c := FloatCompressor.make min epsilon max precision in
      FloatCompressor.shift c = i32 (23 - precision)
      /\ FloatCompressor.f_min c = i32 min
      /\ FloatCompressor.f_eps c = i32 epsilon
      /\ FloatCompressor.f_max c = i32 max
      /\ FloatCompressor.negatives c = (i32 min <? 0)
      /\ FloatCompressor.lossless c = (i32 (23 - precision) =? 0)).
Proof.
  split; [reflexivity|]. split; [discriminate|].
  unfold FloatCompressor.make.
  destruct (i32 (23 - precision) =? 0); repeat split.
Qed.

(** C10 as stated fails: with [epsilon = max = 1.0], which is not legal,
    construction completes and no error is produced. *)
Lemma construct_accepts_invalid :
  flt (f32_of_bits 0x3F800000) (f32_of_bits 0x3F800000) = false
  /\ ~ FloatCompressor.valid_config 0xBF800000 0x3F800000 0x3F800000 12
  /\ ~ exists message,
         FloatCompressor.construct 0xBF800000 0x3F800000 0x3F800000 12
         = FloatCompressor.Rejected message.
Proof.
  split; [vm_compute; reflexivity|]. split.
  - intros (_ & _ & H & _). vm_compute in H. discriminate.
  - intros [message H]. discriminate.
Qed.

(** * Further properties of the code *)

(** ** The scaling product of the half-precision encoder *)

Section ScalingProduct.

(** The number of binary digits of a positive number. *)
Lemma digits2_pos_bounds p :
  2 ^ (Zpos (digits2_pos p) - 1) <= Zpos p < 2 ^ Zpos (digits2_pos p).
Proof.
  induction p as [p IH | p IH |]; cbn [digits2_pos].
  - rewrite Pos2Z.inj_succ.
    replace (Z.succ (Z.pos (digits2_pos p)) - 1)
      with (Z.succ (Z.pos (digits2_pos p) - 1)) by lia.
    rewrite !Z.pow_succ_r by lia. lia.
  - rewrite Pos2Z.inj_succ.
    replace (Z.succ (Z.pos (digits2_pos p)) - 1)
      with (Z.succ (Z.pos (digits2_pos p) - 1)) by lia.
    rewrite !Z.pow_succ_r by lia. lia.
  - cbn. lia.
Qed.

Lemma digits2_pos_unique p d :
  0 < d -> 2 ^ (d - 1) <= Zpos p < 2 ^ d -> Zpos (digits2_pos p) = d.
Proof.
  intros Hd H. pose proof (digits2_pos_bounds p) as B.
  destruct (Z.lt_trichotomy (Zpos (digits2_pos p)) d) as [L | [E | G]];
    [|assumption|].
  - assert (2 ^ Zpos (digits2_pos p) <= 2 ^ (d - 1))
      by (apply Z.pow_le_mono_r; lia).
    lia.
  - assert (2 ^ d <= 2 ^ (Zpos (digits2_pos p) - 1))
      by (apply Z.pow_le_mono_r; lia).
    lia.
Qed.

(** Multiplying a normal binary32 number by 2^37 is exact: the significand
    is kept and the exponent moves, as long as the result stays finite. *)
Lemma fmul_scale_normal (mv : positive) (ev : Z) :
  2 ^ 23 <= Zpos mv < 2 ^ 24 -> -149 <= ev <= 67 ->
  fmul (S754_finite false 8388608 14) (S754_finite false mv ev)
  = S754_finite false mv (ev + 37).
Proof.
  intros Hm He.
  pose proof (digits2_pos_unique mv 24 ltac:(lia) Hm) as Hd.
  injection Hd as Hd.
  unfold fmul. cbn [SFmul xorb]. cbn [Pos.mul].
  unfold binary_round_aux, shr_fexp, Zdigits2.
  cbn [digits2_pos]. rewrite Hd. cbn [Pos.succ].
  unfold fexp, emin.
  replace (IntDef.Z.max (47 + (14 + ev) - 24) (3 - 128 - 24) - (14 + ev))
    with 23 by (change IntDef.Z.max with Z.max; lia).
  cbn [shr shr_record_of_loc iter_pos shr_1 shr_m shr_r shr_s orb
       loc_of_shr_record round_nearest_even].
  rewrite Hd.
  replace (IntDef.Z.max (24 + (14 + ev + 23) - 24) (3 - 128 - 24)
           - (14 + ev + 23))
    with 0 by (change IntDef.Z.max with Z.max; lia).
  cbn [shr shr_m].
  destruct (Z.leb_spec (14 + ev + 23) (128 - 24)); [|lia].
  f_equal. lia.
Qed.

(** The product of a subnormal binary32 number and 2^37 is below one. *)
Lemma fmul_scale_subnormal (mv : positive) :
  Zpos mv < 2 ^ 23 ->
  int_of_f32
    (fmul (S754_finite false 8388608 14) (S754_finite false mv (-149)))
  = 0.
Proof.
  intros Hm. pose proof (digits2_pos_bounds mv) as B.
  assert (Hd : Zpos (digits2_pos mv) <= 23).
  { destruct (Z.le_gt_cases (Zpos (digits2_pos mv)) 23) as [L | G];
      [assumption|].
    assert (2 ^ 23 <= 2 ^ (Zpos (digits2_pos mv) - 1))
      by (apply Z.pow_le_mono_r; lia).
    lia. }
  unfold fmul, int_of_f32. cbn [SFmul xorb Pos.mul].
  unfold binary_round_aux, shr_fexp, Zdigits2, fexp, emin.
  cbn [digits2_pos].
  remember (digits2_pos mv) as d eqn:Ed.
  do 5 (try (destruct d as [d | d |]; try (exfalso; lia))).
  all: change IntDef.Z.max with Z.max.
  all: cbn; rewrite <- ?Ed; cbn.
  all: rewrite Z.div_small by lia; reflexivity.
Qed.

(** What the encoder computes from a magnitude below the smallest half
    normal: the integer part of the magnitude times 2^37. *)
Lemma scaled_magnitude g :
  0 <= g < 0x38800000 ->
  int_of_f32 (fmul (f32_of_bits (u32 Float16Compressor.n_mul)) (f32_of_bits g))
  = if g <? 2 ^ 23 then 0
    else (g mod 2 ^ 23 + 2 ^ 23) / 2 ^ (113 - g / 2 ^ 23).
Proof.
  intros Hg.
  change (f32_of_bits (u32 Float16Compressor.n_mul))
    with (S754_finite false 8388608 14).
  pose proof (f32_of_bits_cases g ltac:(lia)) as C. cbv zeta in C.
  replace (mag32 g) with g in C by (unfold mag32; zlia).
  replace (2 ^ 31 <=? g) with false in C by (symmetry; apply Z.leb_gt; lia).
  destruct C as [[G E] | [[G E] | [[G E] | [[G E] | [G E]]]]];
    rewrite E; try lia.
  - subst g. reflexivity.
  - destruct (Z.ltb_spec g (2 ^ 23)); [|lia].
    apply fmul_scale_subnormal. rewrite Z2Pos.id; lia.
  - destruct (Z.ltb_spec g (2 ^ 23)); [lia|].
    assert (He : 1 <= g / 2 ^ 23 <= 112) by zlia.
    assert (Hm : 0 <= g mod 2 ^ 23 < 2 ^ 23) by zlia.
    rewrite fmul_scale_normal by (rewrite ?Z2Pos.id; lia).
    unfold int_of_f32.
    destruct (Z.leb_spec 0 (g / 2 ^ 23 - 150 + 37)); [lia|].
    rewrite Z2Pos.id by lia.
    replace (- (g / 2 ^ 23 - 150 + 37)) with (113 - g / 2 ^ 23) by lia.
    set (q := (g mod 2 ^ 23 + 2 ^ 23) / 2 ^ (113 - g / 2 ^ 23)).
    assert (Hq : 0 <= q < 2 ^ 24).
    { subst q. split.
      - apply Z.div_pos; [lia | apply Z.pow_pos_nonneg; lia].
      - apply Z.div_lt_upper_bound; [apply Z.pow_pos_nonneg; lia|].
        assert (1 <= 2 ^ (113 - g / 2 ^ 23))
          by (apply (Z.pow_le_mono_r 2 0); lia).
        nia. }
    destruct (Z.leb_spec (- 2 ^ 31) q), (Z.ltb_spec q (2 ^ 31));
      cbn [andb]; lia.
Qed.

End ScalingProduct.

(** ** The half-precision encoder below the normal range *)

Section HalfBelowNormal.

Import Float16Compressor.

Ltac half_values :=
  change n_inf with 0x7F800000 in *; change n_max with 0x477FE000 in *;
  change n_min with 0x38800000 in *; change n_sign with (- 2 ^ 31) in *;
  change n_nan with 0x7F802000 in *; change c_sign with (- 2 ^ 15) in *;
  change c_max with 0x23BFF in *; change d_max with 0x1C000 in *;
  change d_min with 0x1C000 in *; change c_sub with 0x3FF in *;
  change c_nor with 0x400 in *; change shift with 13 in *;
  change shift_sign with 16 in *.

(** The integer part of the scaled magnitude is below 2^23. *)
Lemma scaled_quotient_range g :
  2 ^ 23 <= g < 0x38800000 ->
  0 <= (g mod 2 ^ 23 + 2 ^ 23) / 2 ^ (113 - g / 2 ^ 23) < 2 ^ 23.
Proof.
  intros Hg.
  assert (He : 1 <= g / 2 ^ 23 <= 112) by zlia.
  assert (Hm : 0 <= g mod 2 ^ 23 < 2 ^ 23) by zlia.
  assert (Hp : 2 ^ 1 <= 2 ^ (113 - g / 2 ^ 23))
    by (apply Z.pow_le_mono_r; lia).
  split.
  - apply Z.div_pos; lia.
  - apply Z.div_lt_upper_bound; [lia|]. nia.
Qed.

(** [compress] on magnitudes below the smallest half normal. *)
Lemma compress_below_normal x :
  0 <= x < 2 ^ 32 -> mag32 x < 0x38800000 ->
  compress x =
    x / 2 ^ 31 * 2 ^ 15 +
    (if mag32 x <? 2 ^ 23 then 0
     else (mag32 x mod 2 ^ 23 + 2 ^ 23) / 2 ^ (113 - mag32 x / 2 ^ 23))
    / 2 ^ 13.
Proof.
  intros Hx Hg. unfold mag32 in *.
  set (g := x mod 2 ^ 31) in *.
  assert (Hgr : 0 <= g < 2 ^ 31) by (subst g; zlia).
  pose proof (scaled_magnitude g ltac:(lia)) as Hs.
  set (q := if g <? 2 ^ 23 then 0
            else (g mod 2 ^ 23 + 2 ^ 23) / 2 ^ (113 - g / 2 ^ 23)) in *.
  assert (Hq : 0 <= q < 2 ^ 23).
  { subst q. destruct (Z.ltb_spec g (2 ^ 23)); [lia|].
    apply scaled_quotient_range. lia. }
  clearbody q.
  cbv delta [compress] beta.
  let_step v0. let_step sign. let_step v1. let_step sign16.
  let_step s0. let_step s. let_step v2. let_step v3. let_step v4.
  let_step v5. let_step v6. let_step v7.
  half_values. unfold shr_u, sub in *.
  settle sign as (x / 2 ^ 31 * 2 ^ 31)
    by (rewrite land_high_mask by lia; unfold v0, u32, i32; zlia).
  settle v1 as g by
    (unfold v0; rewrite u32_i32, (u32_small x), lxor_strip_high by lia;
     apply i32_small; zlia).
  clear v0.
  settle sign16 as (x / 2 ^ 31 * 2 ^ 15)
    by (rewrite (u32_small (_ * _)), Z.shiftr_div_pow2 by zlia; zlia).
  settle s as q by (subst s0; rewrite (u32_small g) by lia; exact Hs).
  clear Hs.
  settle v2 as q by crunch.
  settle v3 as q by crunch. settle v4 as q by crunch.
  settle v5 as (q / 2 ^ 13) by crunch.
  settle v6 as (q / 2 ^ 13) by crunch.
  settle v7 as (q / 2 ^ 13) by crunch.
  rewrite (u32_small (q / 2 ^ 13)) by zlia.
  rewrite lor_low_high by zlia. unfold u16. zlia.
Qed.

End HalfBelowNormal.

(** ** The magnitude field of the half-precision encoder *)

Section HalfMagnitude.

Import Float16Compressor.

(** The magnitude field below the normal range is the magnitude in units of
    2^-24, rounded toward zero. *)
Lemma scaled_as_ulps g :
  0 <= g < 0x38800000 ->
  (if g <? 2 ^ 23 then 0
   else (g mod 2 ^ 23 + 2 ^ 23) / 2 ^ (113 - g / 2 ^ 23)) / 2 ^ 13
  = ulps32 g / 2 ^ 125.
Proof.
  intros Hg. unfold ulps32.
  destruct (Z.ltb_spec g (2 ^ 23)).
  - rewrite Z.div_small with (a := g) by lia. reflexivity.
  - assert (He : 1 <= g / 2 ^ 23 <= 112) by zlia.
    set (e := g / 2 ^ 23) in *. set (M := g mod 2 ^ 23 + 2 ^ 23).
    rewrite Z.div_div by (try apply Z.pow_pos_nonneg; lia).
    rewrite <- Z.pow_add_r by lia.
    replace (2 ^ 125) with (2 ^ (113 - e + 13) * 2 ^ (e - 1))
      by (rewrite <- Z.pow_add_r by lia; f_equal; lia).
    rewrite Z.div_mul_cancel_r by (apply Z.pow_nonzero; lia).
    reflexivity.
Qed.


Lemma compress_sign_magnitude x :
  0 <= x < 2 ^ 32 ->
  compress x = x / 2 ^ 31 * 2 ^ 15 + half_magnitude (mag32 x).
Proof.
  intros Hx. unfold half_magnitude.
  assert (Hg : 0 <= mag32 x < 2 ^ 31) by (unfold mag32; zlia).
  destruct (Z.ltb_spec (mag32 x) 0x38800000).
  - rewrite compress_below_normal, scaled_as_ulps by lia. reflexivity.
  - apply compress_from_normal; assumption.
Qed.

Lemma ulps32_below_normal g :
  0 <= g < 0x38800000 -> 0 <= ulps32 g / 2 ^ 125 < 2 ^ 10.
Proof.
  intros Hg. pose proof (ulps32_nonneg g ltac:(lia)) as H0.
  pose proof (ulps32_lt g 0x38800000 Hg) as H1.
  change (ulps32 0x38800000) with (2 ^ 10 * 2 ^ 125) in H1.
  split.
  - apply Z.div_pos; lia.
  - apply Z.div_lt_upper_bound; lia.
Qed.

Lemma half_magnitude_range g :
  0 <= g < 2 ^ 31 -> 0 <= half_magnitude g < 2 ^ 15.
Proof.
  intros Hg. unfold half_magnitude.
  destruct (Z.ltb_spec g 0x38800000).
  - pose proof (ulps32_below_normal g). lia.
  - destruct (Z.leb_spec g 0x477FE000); [zlia|].
    destruct (Z.leb_spec g 0x7F800000); [lia|].
    destruct (Z.ltb_spec g 0x7F802000); [lia|]. zlia.
Qed.

Lemma half_magnitude_mono g1 g2 :
  0 <= g1 <= g2 -> g2 < 2 ^ 31 -> half_magnitude g1 <= half_magnitude g2.
Proof.
  intros H1 H2. unfold half_magnitude.
  destruct (Z.ltb_spec g1 0x38800000), (Z.ltb_spec g2 0x38800000); try lia.
  - apply Z.div_le_mono; [lia|].
    destruct (Z.eq_dec g1 g2) as [-> | Hne]; [lia|].
    pose proof (ulps32_lt g1 g2). lia.
  - pose proof (ulps32_below_normal g1 ltac:(lia)).
    destruct (Z.leb_spec g2 0x477FE000); [zlia|].
    destruct (Z.leb_spec g2 0x7F800000); [lia|].
    destruct (Z.ltb_spec g2 0x7F802000); [lia|]. zlia.
  - destruct (Z.leb_spec g1 0x477FE000), (Z.leb_spec g2 0x477FE000);
      destruct (Z.leb_spec g1 0x7F800000), (Z.leb_spec g2 0x7F800000);
      destruct (Z.ltb_spec g1 0x7F802000), (Z.ltb_spec g2 0x7F802000);
      try lia; zlia.
Qed.


Lemma is_finite_f32 x :
  0 <= x < 2 ^ 32 -> is_finite (f32_of_bits x) = (mag32 x <? 0x7F800000).
Proof.
  intros Hx. pose proof (f32_of_bits_cases x Hx) as C. cbv zeta in C.
  destruct C as [[G ->] | [[G ->] | [[G ->] | [[G ->] | [G ->]]]]];
    cbn [is_finite]; symmetry;
    first [apply Z.ltb_ge; lia | apply Z.ltb_lt; lia].
Qed.

Lemma is_finite_f16 h :
  0 <= h < 2 ^ 16 -> is_finite (f16_of_bits h) = (h mod 2 ^ 15 <? 0x7C00).
Proof.
  intros Hh. pose proof (f16_of_bits_cases h Hh) as C. cbv zeta in C.
  destruct C as [[G ->] | [[G ->] | [[G ->] | [[G ->] | [G ->]]]]];
    cbn [is_finite]; symmetry;
    first [apply Z.ltb_ge; lia | apply Z.ltb_lt; lia].
Qed.

(** The value of a half pattern below the normal range. *)
Lemma f16_subnormal_value h :
  0 <= h < 2 ^ 16 -> h mod 2 ^ 15 < 2 ^ 10 ->
  scaled_value (f16_of_bits h)
  = Some ((if 2 ^ 15 <=? h then -1 else 1) * (h mod 2 ^ 15 * 2 ^ 125)).
Proof.
  intros Hh Hm. pose proof (f16_of_bits_cases h Hh) as C. cbv zeta in C.
  destruct C as [[G ->] | [[G ->] | [[G _] | [[G _] | [G _]]]]];
    try (exfalso; lia); cbn [scaled_value].
  - rewrite G. f_equal. lia.
  - change (-149 <=? -24) with true. cbv iota.
    rewrite Z2Pos.id by lia. reflexivity.
Qed.

(** The sign bit of the result of [decompress]. *)
Lemma decompress_sign h :
  0 <= h < 2 ^ 16 -> decompress h / 2 ^ 31 = h / 2 ^ 15.
Proof.
  intros Hh. destruct (Z.lt_ge_cases (h mod 2 ^ 15) 0x400) as [L | G].
  - apply (subnormal_half_exact h Hh L).
  - rewrite decompress_from_normal by assumption.
    destruct (Z.ltb_spec (h mod 2 ^ 15) 0x7C00); zlia.
Qed.

End HalfMagnitude.

(** ** Further properties of the half-precision codec *)

Section HalfProperties.

Import Float16Compressor.

(** X1.  Encoding undoes decoding: every 16-bit pattern, infinities and
    NaNs included, is returned by [compress] after [decompress]. *)
Theorem half_encode_after_decode h :
  0 <= h < 2 ^ 16 -> compress (decompress h) = h.
Proof. apply compress_decompress. Qed.

Lemma half_encode_after_decode_witness :
  compress (decompress 0x3C00) = 0x3C00.
Proof. apply half_encode_after_decode. lia. Defined.

(** X2.  A decoded half is a fixed point of the round trip: decoding,
    encoding and decoding again changes nothing, whatever the argument. *)
Theorem half_roundtrip_idempotent x :
  decompress (compress (decompress (compress x))) = decompress (compress x).
Proof.
  rewrite compress_decompress by apply compress_range. reflexivity.
Qed.

(** X3.  [compress] keeps the sign bit of every argument and treats both
    signs alike: the code of a negative pattern is the code of its
    magnitude with bit 15 set. *)
Theorem half_compress_sign_symmetric x :
  0 <= x < 2 ^ 31 ->
  compress x < 2 ^ 15 /\ compress (x + 2 ^ 31) = compress x + 2 ^ 15.
Proof.
  intros Hx. rewrite !compress_sign_magnitude by lia.
  replace (mag32 (x + 2 ^ 31)) with (mag32 x) by (unfold mag32; zlia).
  replace (mag32 x) with x by (unfold mag32; zlia).
  pose proof (half_magnitude_range x Hx). zlia.
Qed.

Lemma half_compress_sign_symmetric_witness :
  compress 0x3F800000 < 2 ^ 15 /\
  compress (0x3F800000 + 2 ^ 31) = compress 0x3F800000 + 2 ^ 15.
Proof. apply half_compress_sign_symmetric. lia. Defined.

(** X4.  [compress] is monotone on the patterns of non-negative floats:
    a larger magnitude never gets a smaller code, from zero through the
    subnormal and normal halves up to infinity and the NaNs. *)
Theorem half_compress_monotone x1 x2 :
  0 <= x1 <= x2 -> x2 < 2 ^ 31 -> compress x1 <= compress x2.
Proof.
  intros H1 H2. rewrite !compress_sign_magnitude by lia.
  replace (x1 / 2 ^ 31) with 0 by zlia. replace (x2 / 2 ^ 31) with 0 by zlia.
  replace (mag32 x1) with x1 by (unfold mag32; zlia).
  replace (mag32 x2) with x2 by (unfold mag32; zlia).
  pose proof (half_magnitude_mono x1 x2 H1 H2). lia.
Qed.

Lemma half_compress_monotone_witness :
  compress 0x33800000 <= compress 0x3F800000.
Proof. apply half_compress_monotone; lia. Defined.

(** X5.  Underflow: the code of [x] is a signed zero exactly when the
    magnitude of [x] is below 2^-24, the smallest positive half. *)
Theorem half_compress_underflow x :
  0 <= x < 2 ^ 32 ->
  (compress x mod 2 ^ 15 = 0 <-> mag32 x < 0x33800000).
Proof.
  intros Hx. rewrite compress_sign_magnitude by assumption.
  assert (Hg : 0 <= mag32 x < 2 ^ 31) by (unfold mag32; zlia).
  pose proof (half_magnitude_range _ Hg) as Hr.
  replace ((x / 2 ^ 31 * 2 ^ 15 + half_magnitude (mag32 x)) mod 2 ^ 15)
    with (half_magnitude (mag32 x)) by zlia.
  clear Hr. set (g := mag32 x) in *. clearbody g. clear Hx x.
  assert (H0 : half_magnitude 0x337FFFFF = 0) by reflexivity.
  assert (H1 : half_magnitude 0x33800000 = 1) by reflexivity.
  split.
  - intros Hz. destruct (Z.lt_ge_cases g 0x33800000) as [L | G]; [assumption|].
    pose proof (half_magnitude_mono 0x33800000 g ltac:(lia) ltac:(lia)). lia.
  - intros L.
    pose proof (half_magnitude_mono g 0x337FFFFF ltac:(lia) ltac:(lia)).
    pose proof (half_magnitude_range g Hg). lia.
Qed.

Lemma half_compress_underflow_witness :
  compress 0x33000000 mod 2 ^ 15 = 0 <-> mag32 0x33000000 < 0x33800000.
Proof. apply half_compress_underflow. lia. Defined.

(** X6.  In the range of the normal halves the round trip clears the low
    13 significand bits and changes nothing else: the value is rounded
    toward zero. *)
Theorem half_roundtrip_truncates_normal x :
  0 <= x < 2 ^ 32 -> 0x38800000 <= mag32 x <= 0x477FE000 ->
  decompress (compress x) = x - x mod 2 ^ 13.
Proof.
  intros Hx Hg. rewrite compress_from_normal by lia.
  destruct (Z.leb_spec (mag32 x) 0x477FE000); [|lia].
  unfold mag32 in *.
  set (h := x / 2 ^ 31 * 2 ^ 15 + (x mod 2 ^ 31 / 2 ^ 13 - 0x1C000)).
  assert (Hh : 0 <= h < 2 ^ 16) by (subst h; zlia).
  assert (Hm : h mod 2 ^ 15 = x mod 2 ^ 31 / 2 ^ 13 - 0x1C000)
    by (subst h; zlia).
  rewrite decompress_from_normal by (rewrite ?Hm; zlia).
  rewrite Hm. destruct (Z.ltb_spec (x mod 2 ^ 31 / 2 ^ 13 - 0x1C000) 0x7C00);
    subst h; zlia.
Qed.

Lemma half_roundtrip_truncates_normal_witness :
  decompress (compress 0x3F801234) = 0x3F801234 - 0x3F801234 mod 2 ^ 13.
Proof.
  apply half_roundtrip_truncates_normal; [lia | unfold mag32; zlia].
Defined.

(** X7.  Below the smallest normal half the round trip keeps the sign
    bit, of a result that is zero too, and rounds the magnitude toward
    zero to a multiple of 2^-24, the spacing of the subnormal halves. *)
Theorem half_roundtrip_truncates_subnormal x :
  0 <= x < 2 ^ 32 -> mag32 x < 0x38800000 ->
  decompress (compress x) / 2 ^ 31 = x / 2 ^ 31 /\
  scaled_value (f32_of_bits (decompress (compress x)))
  = Some ((if 2 ^ 31 <=? x then -1 else 1)
          * (ulps32 (mag32 x) / 2 ^ 125 * 2 ^ 125)).
Proof.
  intros Hx Hg.
  assert (Hgr : 0 <= mag32 x) by (unfold mag32; zlia).
  pose proof (ulps32_below_normal (mag32 x) ltac:(lia)) as Hk.
  rewrite compress_below_normal, scaled_as_ulps by lia.
  set (k := ulps32 (mag32 x) / 2 ^ 125) in *. clearbody k.
  set (h := x / 2 ^ 31 * 2 ^ 15 + k).
  assert (Hh : 0 <= h < 2 ^ 16) by (subst h; zlia).
  assert (Hm : h mod 2 ^ 15 = k) by (subst h; zlia).
  assert (Hs : h / 2 ^ 15 = x / 2 ^ 31) by (subst h; zlia).
  destruct (subnormal_half_exact h Hh ltac:(lia)) as (_ & Hv & Hsg & _).
  split; [rewrite Hsg; exact Hs|].
  rewrite Hv, f16_subnormal_value, Hm by lia.
  replace (2 ^ 15 <=? h) with (2 ^ 31 <=? x); [reflexivity|].
  destruct (Z.leb_spec (2 ^ 31) x), (Z.leb_spec (2 ^ 15) h);
    try reflexivity; exfalso; subst h; zlia.
Qed.

Lemma half_roundtrip_truncates_subnormal_witness :
  decompress (compress 0xB4400000) / 2 ^ 31 = 0xB4400000 / 2 ^ 31 /\
  scaled_value (f32_of_bits (decompress (compress 0xB4400000)))
  = Some ((if 2 ^ 31 <=? 0xB4400000 then -1 else 1)
          * (ulps32 (mag32 0xB4400000) / 2 ^ 125 * 2 ^ 125)).
Proof.
  apply half_roundtrip_truncates_subnormal; [lia | unfold mag32; zlia].
Defined.

(** X8.  [decompress] is exact: it keeps the sign bit and the class of
    every half pattern (finite, infinite or NaN), and a finite half is
    decoded to the binary32 number of the same value. *)
Theorem half_decompress_exact h :
  0 <= h < 2 ^ 16 ->
  decompress h / 2 ^ 31 = h / 2 ^ 15 /\
  is_finite (f32_of_bits (decompress h)) = is_finite (f16_of_bits h) /\
  is_nan (f32_of_bits (decompress h)) = is_nan (f16_of_bits h) /\
  (is_finite (f16_of_bits h) = true ->
   scaled_value (f32_of_bits (decompress h)) = scaled_value (f16_of_bits h)).
Proof.
  intros Hh. pose proof (decompress_range h) as Hr.
  split; [apply decompress_sign; assumption|].
  rewrite is_finite_f32, is_nan_f32, is_finite_f16, is_nan_f16 by assumption.
  unfold nan32.
  split; [|split].
  - destruct (Z.lt_ge_cases (h mod 2 ^ 15) 0x400) as [L | G].
    + destruct (subnormal_half_exact h Hh L) as (_ & _ & _ & Hf).
      destruct (Z.ltb_spec (mag32 (decompress h)) 0x7F800000),
        (Z.ltb_spec (h mod 2 ^ 15) 0x7C00); try reflexivity; lia.
    + rewrite decompress_from_normal by assumption. unfold mag32.
      destruct (Z.ltb_spec (h mod 2 ^ 15) 0x7C00);
        match goal with
        | |- (?a <? ?b) = _ => destruct (Z.ltb_spec a b)
        end; try reflexivity; exfalso; zlia.
  - destruct (Z.lt_ge_cases (h mod 2 ^ 15) 0x400) as [L | G].
    + destruct (subnormal_half_exact h Hh L) as (_ & _ & _ & Hf).
      destruct (Z.ltb_spec 0x7F800000 (mag32 (decompress h))),
        (Z.ltb_spec 0x7C00 (h mod 2 ^ 15)); try reflexivity; lia.
    + rewrite decompress_from_normal by assumption. unfold mag32.
      destruct (Z.ltb_spec (h mod 2 ^ 15) 0x7C00);
        destruct (Z.ltb_spec 0x7C00 (h mod 2 ^ 15));
        match goal with
        | |- (?a <? ?b) = _ => destruct (Z.ltb_spec a b)
        end; try reflexivity; exfalso; zlia.
  - intros Hf. apply Z.ltb_lt in Hf.
    destruct (Z.lt_ge_cases (h mod 2 ^ 15) 0x400) as [L | G].
    + apply (subnormal_half_exact h Hh L).
    + apply (normal_half_exact h Hh). lia.
Qed.

Lemma half_decompress_exact_witness :
  decompress 0xC000 / 2 ^ 31 = 0xC000 / 2 ^ 15 /\
  is_finite (f32_of_bits (decompress 0xC000)) = is_finite (f16_of_bits 0xC000) /\
  is_nan (f32_of_bits (decompress 0xC000)) = is_nan (f16_of_bits 0xC000) /\
  (is_finite (f16_of_bits 0xC000) = true ->
   scaled_value (f32_of_bits (decompress 0xC000))
   = scaled_value (f16_of_bits 0xC000)).
Proof. apply half_decompress_exact. lia. Defined.

End HalfProperties.

(** ** Further properties of the range quantizer *)

Section QuantizerCodes.

Import FloatCompressor QuantizerForms.

Variables min epsilon max precision : Z.
Hypothesis Hmin : 0 <= min < 2 ^ 32.
Hypothesis Heps : 0 <= epsilon < 2 ^ 32.
Hypothesis Hmax : 0 <= max < 2 ^ 32.
Hypothesis Hvalid : valid_config min epsilon max precision.

(** The quantization step [P] and the number [Q] of steps in [2^31]. *)
Lemma step_scale :
  0 < 2 ^ (23 - precision) /\
  2 ^ 31 = 2 ^ (8 + precision) * 2 ^ (23 - precision) /\
  2 ^ (9 + precision) = 2 * 2 ^ (8 + precision).
Proof.
  destruct (valid_config_bits _ _ _ _ Hmin Heps Hmax Hvalid)
    as (_ & _ & _ & _ & Bp).
  split; [apply Z.pow_pos_nonneg; lia|].
  split.
  - rewrite <- Z.pow_add_r by lia. f_equal. lia.
  - replace (9 + precision) with (Z.succ (8 + precision)) by lia.
    apply Z.pow_succ_r. lia.
Qed.

(** Quotients by a step [P] that divides [2^31]. *)
Lemma clamped_quotients P Q y :
  0 < P -> 2 ^ 31 = Q * P -> clamped min epsilon max y ->
  0 <= epsilon / P <= max / P /\ max / P < Q /\
  (y < 2 ^ 31 -> 0 <= y / P <= max / P /\ (y <> 0 -> epsilon / P <= y / P)) /\
  (2 ^ 31 <= y ->
     y / P = Q + (y - 2 ^ 31) / P /\
     epsilon / P <= (y - 2 ^ 31) / P < Q /\
     (2 ^ 31 <= min -> (y - 2 ^ 31) / P <= (min - 2 ^ 31) / P)).
Proof.
  intros HP HQ Hy.
  destruct (valid_config_bits _ _ _ _ Hmin Heps Hmax Hvalid)
    as (Bmin & Be & Bem & Bm & _).
  pose proof (clamped_range _ _ _ _ Hmin Heps Hmax Hvalid y Hy) as Ry.
  assert (Hdiv : forall a b, 0 <= a <= b -> 0 <= a / P <= b / P).
  { intros a b Hab. split; [apply Z.div_pos; lia|].
    apply Z.div_le_mono; lia. }
  assert (Hlt : forall a k, 0 <= a < k * P -> a / P < k).
  { intros a k Ha. apply Z.div_lt_upper_bound; lia. }
  split; [apply Hdiv; lia|].
  split; [apply Hlt; lia|].
  unfold clamped in Hy. split.
  - intros Hpos. split; [apply Hdiv; lia|].
    intros Hne. apply Hdiv. lia.
  - intros Hneg. split; [|split].
    + replace y with (Q * P + (y - 2 ^ 31)) at 1 by lia.
      apply Z.div_add_l. lia.
    + split; [apply Hdiv; lia | apply Hlt; lia].
    + intros Hn. apply Hdiv. lia.
Qed.

(** Clearing the low bits of a clamped pattern does not change its code. *)
Lemma code_of_truncated P Q y :
  0 < P -> 2 ^ 31 = Q * P -> 0 <= y ->
  code_of P min epsilon max (y / P * P) = code_of P min epsilon max y.
Proof.
  intros HP HQ Hy. unfold code_of.
  rewrite Z.div_mul by lia.
  pose proof (Z.mul_div_le y P HP) as Hle.
  assert (Hq : y / P * P - 2 ^ 31 = (y / P - Q) * P) by lia.
  destruct (Z.ltb_spec y (2 ^ 31)), (Z.ltb_spec (y / P * P) (2 ^ 31));
    try reflexivity.
  - lia.
  - exfalso. assert (Q <= y / P) by (apply Z.div_le_lower_bound; lia). nia.
  - assert (Hd : y / P = Q + (y - 2 ^ 31) / P).
    { replace y with (Q * P + (y - 2 ^ 31)) at 1 by lia.
      apply Z.div_add_l. lia. }
    rewrite Hq, Z.div_mul by lia.
    destruct (Z.leb_spec (2 ^ 31) min); lia.
Qed.

(** The all-zero code decodes to plus zero. *)
Lemma decompress_zero :
  decompress (make min epsilon max precision) 0 = 0.
Proof.
  destruct (valid_config_bits _ _ _ _ Hmin Heps Hmax Hvalid)
    as (Bmin & Be & Bem & Bm & Bp).
  destruct step_scale as (HP & HQ & _).
  destruct (clamped_quotients _ _ 0 HP HQ ltac:(left; reflexivity))
    as (Qe & Qm & _).
  destruct (Z.eq_dec precision 23) as [E | E].
  - rewrite (make_lossless _ _ _ _ Hmin Heps Hmax Hvalid E).
    unfold decompress.
    cbn [lossless c_zero c_max p_delta n_delta negatives FloatCompressor.shift].
    change (Z.lxor (i32 0) signF) with (- 2 ^ 31).
    rewrite !select_b2z.
    destruct (Z.gtb_spec (- 2 ^ 31) (- 2 ^ 31)); [lia|].
    assert (Hs : (if 2 ^ 31 <=? min
                  then if - 2 ^ 31 >? max - 2 ^ 31
                       then add (- 2 ^ 31) (epsilon - max + 2 ^ 31 - 1)
                       else - 2 ^ 31
                  else - 2 ^ 31) = - 2 ^ 31).
    { destruct (Z.leb_spec (2 ^ 31) min); [|reflexivity].
      destruct (Z.gtb_spec (- 2 ^ 31) (max - 2 ^ 31)); [lia | reflexivity]. }
    rewrite Hs. reflexivity.
  - pose proof (make_lossy _ _ _ _ Hmin Heps Hmax Hvalid ltac:(lia)) as M.
    cbv zeta in M. rewrite M.
    unfold decompress.
    cbn [lossless c_zero c_max p_delta n_delta negatives FloatCompressor.shift].
    change (i32 0) with 0. rewrite !select_b2z.
    change (0 >? 0) with false. cbv iota.
    assert (Hs : (if 2 ^ 31 <=? min
                  then if 0 >? max / 2 ^ (23 - precision)
                       then add 0 (2 ^ 31 / 2 ^ (23 - precision)
                                   + epsilon / 2 ^ (23 - precision)
                                   - max / 2 ^ (23 - precision) - 1)
                       else 0
                  else 0) = 0).
    { destruct (Z.leb_spec (2 ^ 31) min); [|reflexivity].
      destruct (Z.gtb_spec 0 (max / 2 ^ (23 - precision)));
        [lia | reflexivity]. }
    rewrite Hs. unfold shl_s. rewrite Z.shiftl_0_l. reflexivity.
Qed.

(** The code of a clamped pattern. *)
Lemma compress_clamped y :
  clamped min epsilon max y ->
  compress (make min epsilon max precision) y
  = code_of (2 ^ (23 - precision)) min epsilon max y.
Proof.
  intros Hy.
  rewrite (compress_make _ _ _ _ Hmin Heps Hmax Hvalid)
    by (apply (clamped_range _ _ _ _ Hmin Heps Hmax Hvalid); assumption).
  rewrite (clamp_fixed _ _ _ _ Hmin Heps Hmax Hvalid); [reflexivity | |assumption].
  apply clamp_fields_make; assumption.
Qed.

(** X9.  [clamp] is idempotent: clamping a clamped pattern changes
    nothing. *)
Theorem clamp_idempotent x :
  0 <= x < 2 ^ 32 ->
  clamp (make min epsilon max precision)
    (clamp (make min epsilon max precision) x)
  = clamp (make min epsilon max precision) x.
Proof.
  intros Hx.
  pose proof (clamp_fields_make _ _ _ _ Hmin Heps Hmax Hvalid) as Fc.
  apply (clamp_fixed _ _ _ _ Hmin Heps Hmax Hvalid); [assumption|].
  apply (clamp_clamped _ _ _ _ Hmin Heps Hmax Hvalid); assumption.
Qed.

(** X10.  The dead zone has the code zero, and the code zero decodes to
    plus zero: every argument of magnitude below [epsilon], of either
    sign, is encoded as 0 and comes back as the all-zero pattern. *)
Theorem dead_zone_code x :
  0 <= x < 2 ^ 32 -> mag32 x < epsilon ->
  compress (make min epsilon max precision) x = 0 /\
  decompress (make min epsilon max precision)
    (compress (make min epsilon max precision) x) = 0.
Proof.
  intros Hx Hm.
  destruct (clamp_bounds _ _ _ _ Hmin Heps Hmax Hvalid x Hx)
    as (_ & _ & _ & Hz).
  assert (Hc : compress (make min epsilon max precision) x = 0).
  { rewrite (compress_make _ _ _ _ Hmin Heps Hmax Hvalid) by assumption.
    rewrite (Hz Hm). unfold code_of. rewrite Z.div_0_l; [reflexivity|].
    destruct step_scale as (HP & _). lia. }
  rewrite Hc. split; [reflexivity | apply decompress_zero].
Qed.

(** X11.  Saturation: every pattern with a clear sign bit at or above
    [max], plus infinity and the positive NaNs included, has the code of
    [max]; when negatives are representable every pattern with a set sign
    bit at or beyond [min] has the code of [min]. *)
Theorem compress_saturates x :
  0 <= x < 2 ^ 32 ->
  (max <= x < 2 ^ 31 ->
     compress (make min epsilon max precision) x
     = compress (make min epsilon max precision) max)
  /\ (2 ^ 31 <= min <= x ->
     compress (make min epsilon max precision) x
     = compress (make min epsilon max precision) min).
Proof.
  intros Hx.
  destruct (valid_config_bits _ _ _ _ Hmin Heps Hmax Hvalid)
    as (Bmin & Be & Bem & Bm & _).
  pose proof (clamp_fields_make _ _ _ _ Hmin Heps Hmax Hvalid) as Fc.
  split; intros Hr;
    rewrite !(compress_make _ _ _ _ Hmin Heps Hmax Hvalid) by lia;
    f_equal;
    rewrite !(clamp_unsigned _ _ _ _ Hmin Heps Hmax Hvalid _ _ Fc) by lia.
  - destruct (Z.ltb_spec x (2 ^ 31)), (Z.ltb_spec max (2 ^ 31)); try lia.
    rewrite Z.min_r, Z.min_id by lia. reflexivity.
  - destruct (Z.ltb_spec x (2 ^ 31)), (Z.ltb_spec min (2 ^ 31)); try lia.
    destruct (Z.leb_spec (2 ^ 31) min); [|lia].
    rewrite Z.min_r, Z.min_id by lia. reflexivity.
Qed.

(** X12.  Whatever the argument, decoding its code gives the clamped
    argument with its low [23 - precision] bits cleared, provided
    [epsilon] is at least one quantization step; so an argument inside
    [min, max] and outside the dead zone comes back with these bits
    cleared and nothing else changed. *)
Theorem roundtrip_clears_low_bits x :
  1 <= epsilon / 2 ^ (23 - precision) ->
  0 <= x < 2 ^ 32 ->
  decompress (make min epsilon max precision)
    (compress (make min epsilon max precision) x)
  = clamp (make min epsilon max precision) x
    - clamp (make min epsilon max precision) x mod 2 ^ (23 - precision)
  /\ (fle (f32_of_bits min) (f32_of_bits x) = true ->
      fle (f32_of_bits x) (f32_of_bits max) = true ->
      fle (f32_of_bits epsilon) (SFabs (f32_of_bits x)) = true ->
      decompress (make min epsilon max precision)
        (compress (make min epsilon max precision) x)
      = x - x mod 2 ^ (23 - precision)).
Proof.
  intros He Hx.
  rewrite (roundtrip_make _ _ _ _ Hmin Heps Hmax Hvalid) by assumption.
  destruct step_scale as (HP & _).
  split.
  - rewrite Z.mod_eq by lia. lia.
  - intros Hlo Hhi Hdz.
    rewrite (in_range_clamped _ _ _ _ Hmin Heps Hmax Hvalid x) by assumption.
    rewrite Z.mod_eq by lia. lia.
Qed.

(** X13.  A code fits in [9 + precision] bits when [epsilon] is at least
    one quantization step. *)
Theorem code_width x :
  1 <= epsilon / 2 ^ (23 - precision) ->
  0 <= x < 2 ^ 32 ->
  0 <= compress (make min epsilon max precision) x < 2 ^ (9 + precision).
Proof.
  intros He Hx.
  rewrite (compress_make _ _ _ _ Hmin Heps Hmax Hvalid) by assumption.
  pose proof (clamp_fields_make _ _ _ _ Hmin Heps Hmax Hvalid) as Fc.
  pose proof (clamp_clamped _ _ _ _ Hmin Heps Hmax Hvalid _ x Fc Hx) as Hy.
  set (y := clamp _ x) in *. clearbody y.
  pose proof (clamped_range _ _ _ _ Hmin Heps Hmax Hvalid y Hy) as Ry.
  destruct step_scale as (HP & HQ & HW). rewrite HW.
  destruct (clamped_quotients _ _ y HP HQ Hy) as (Qe & Qm & Qpos & Qneg).
  unfold code_of.
  set (P := 2 ^ (23 - precision)) in *. set (Q := 2 ^ (8 + precision)) in *.
  destruct (Z.ltb_spec y (2 ^ 31)) as [Hp | Hn].
  - destruct (Qpos Hp) as (Q1 & Q2).
    destruct (Z.eqb_spec (y / P) 0) as [E0 | E0]; [lia|].
    assert (y <> 0) by (intros ->; apply E0; apply Z.div_0_l; lia).
    specialize (Q2 ltac:(assumption)). lia.
  - destruct (Qneg Hn) as (Q1 & Q2 & _).
    destruct (Z.leb_spec (2 ^ 31) min); lia.
Qed.

(** X14.  Encoding a decoded code gives the code back: [compress] after
    [decompress] after [compress] is [compress], when the low
    [23 - precision] bits of [epsilon] are clear. *)
Theorem compress_decompress_compress x :
  epsilon mod 2 ^ (23 - precision) = 0 ->
  0 <= x < 2 ^ 32 ->
  compress (make min epsilon max precision)
    (decompress (make min epsilon max precision)
       (compress (make min epsilon max precision) x))
  = compress (make min epsilon max precision) x.
Proof.
  intros Ha Hx.
  pose proof (clamp_fields_make _ _ _ _ Hmin Heps Hmax Hvalid) as Fc.
  pose proof (clamp_clamped _ _ _ _ Hmin Heps Hmax Hvalid _ x Fc Hx) as Hy.
  destruct (truncation_clamped _ _ _ _ Hmin Heps Hmax Hvalid _ Ha Hy)
    as [Ht He].
  rewrite (roundtrip_make _ _ _ _ Hmin Heps Hmax Hvalid x He Hx).
  rewrite (compress_clamped _ Ht).
  rewrite (compress_make _ _ _ _ Hmin Heps Hmax Hvalid x Hx).
  destruct step_scale as (HP & HQ & _).
  apply (code_of_truncated _ _ _ HP HQ).
  pose proof (clamped_range _ _ _ _ Hmin Heps Hmax Hvalid _ Hy). lia.
Qed.

(** X15.  The codes are contiguous: when the low [23 - precision] bits of
    [epsilon] are clear, every number from 0 up to the larger of the codes
    of [max] and [min] is a code, and [compress] undoes [decompress] on
    it. *)
Theorem decode_then_encode n :
  epsilon mod 2 ^ (23 - precision) = 0 ->
  0 <= n <= Z.max (compress (make min epsilon max precision) max)
                  (compress (make min epsilon max precision) min) ->
  compress (make min epsilon max precision)
    (decompress (make min epsilon max precision) n) = n.
Proof.
  intros Ha Hn.
  destruct (valid_config_bits _ _ _ _ Hmin Heps Hmax Hvalid)
    as (Bmin & Be & Bem & Bm & _).
  pose proof (clamp_fields_make _ _ _ _ Hmin Heps Hmax Hvalid) as Fc.
  destruct step_scale as (HP & HQ & _).
  assert (Hpre : forall y, clamped min epsilon max y ->
            y mod 2 ^ (23 - precision) = 0 ->
            code_of (2 ^ (23 - precision)) min epsilon max y = n ->
            compress (make min epsilon max precision)
              (decompress (make min epsilon max precision) n) = n).
  { intros y Hy Hal Hc.
    destruct (truncation_clamped _ _ _ _ Hmin Heps Hmax Hvalid _ Ha Hy)
      as [_ He].
    pose proof (clamped_range _ _ _ _ Hmin Heps Hmax Hvalid y Hy) as Ry.
    rewrite <- Hc at 1. rewrite <- (compress_clamped y Hy).
    rewrite (roundtrip_make _ _ _ _ Hmin Heps Hmax Hvalid y He Ry).
    rewrite (clamp_fixed _ _ _ _ Hmin Heps Hmax Hvalid _ y Fc Hy).
    replace (y / 2 ^ (23 - precision) * 2 ^ (23 - precision)) with y
      by (rewrite (Z.div_mod y (2 ^ (23 - precision))) at 1 by lia; lia).
    rewrite (compress_clamped y Hy). exact Hc. }
  assert (Cmax : compress (make min epsilon max precision) max
                 = code_of (2 ^ (23 - precision)) min epsilon max max)
    by (apply compress_clamped; unfold clamped; lia).
  assert (Cmin : compress (make min epsilon max precision) min
                 = if (2 ^ 31 <=? min) && (epsilon <=? min - 2 ^ 31)
                   then code_of (2 ^ (23 - precision)) min epsilon max min
                   else 0).
  { rewrite (compress_make _ _ _ _ Hmin Heps Hmax Hvalid) by assumption.
    rewrite (clamp_unsigned _ _ _ _ Hmin Heps Hmax Hvalid _ _ Fc) by assumption.
    rewrite Z.min_id.
    destruct (Z.ltb_spec min (2 ^ 31)), (Z.leb_spec (2 ^ 31) min);
      try lia; cbn [andb].
    - replace (Z.min min max) with 0 by lia.
      destruct (Z.leb_spec epsilon 0); [lia | reflexivity].
    - destruct (Z.leb_spec epsilon (min - 2 ^ 31)); reflexivity. }
  rewrite Cmax, Cmin in Hn. clear Cmax Cmin.
  set (P := 2 ^ (23 - precision)) in *. set (Q := 2 ^ (8 + precision)) in *.
  pose proof (Z.div_mod epsilon P ltac:(lia)) as De. rewrite Ha in De.
  assert (Hpe : 1 <= epsilon / P) by nia.
  assert (Hqm : epsilon / P <= max / P) by (apply Z.div_le_mono; lia).
  pose proof (Z.mul_div_le max P HP) as Hmm.
  set (pe := epsilon / P) in *. set (qm := max / P) in *.
  destruct (Z.eq_dec n 0) as [-> | Hn0].
  - apply (Hpre 0); [left; reflexivity | apply Z.mod_0_l; lia | reflexivity].
  - destruct (Z.le_gt_cases n (qm - pe + 1)) as [Hlo | Hhi].
    + apply (Hpre ((n + pe - 1) * P)).
      * right; left. nia.
      * apply Z.mod_mul. lia.
      * unfold code_of. rewrite Z.div_mul by lia.
        destruct (Z.ltb_spec ((n + pe - 1) * P) (2 ^ 31)); [|nia].
        destruct (Z.eqb_spec (n + pe - 1) 0); [lia|]. fold pe. lia.
    + unfold code_of in Hn. fold pe qm in Hn.
      destruct (Z.ltb_spec max (2 ^ 31)); [|lia].
      destruct (Z.eqb_spec qm 0); [lia|].
      destruct (Z.leb_spec (2 ^ 31) min) as [Hneg | Hneg]; cbn [andb] in Hn;
        [|lia].
      destruct (Z.leb_spec epsilon (min - 2 ^ 31)) as [Hem | Hem]; [|lia].
      destruct (Z.ltb_spec min (2 ^ 31)); [lia|].
      pose proof (Z.mul_div_le (min - 2 ^ 31) P HP) as Hmn.
      set (qn := (min - 2 ^ 31) / P) in *.
      apply (Hpre (2 ^ 31 + (n - qm + 2 * pe - 2) * P)).
      * right; right; left. nia.
      * rewrite HQ. rewrite <- Z.mul_add_distr_r. apply Z.mod_mul. lia.
      * unfold code_of.
        destruct (Z.ltb_spec (2 ^ 31 + (n - qm + 2 * pe - 2) * P) (2 ^ 31));
          [nia|].
        destruct (Z.leb_spec (2 ^ 31) min); [|lia].
        replace (2 ^ 31 + (n - qm + 2 * pe - 2) * P - 2 ^ 31)
          with ((n - qm + 2 * pe - 2) * P) by lia.
        rewrite Z.div_mul by lia. fold pe qm. lia.
Qed.

End QuantizerCodes.

Lemma clamp_idempotent_witness :
  FloatCompressor.clamp
    (FloatCompressor.make 0xC77FE000 0x38800000 0x477FE000 12)
    (FloatCompressor.clamp
       (FloatCompressor.make 0xC77FE000 0x38800000 0x477FE000 12) 0x48000000)
  = FloatCompressor.clamp
      (FloatCompressor.make 0xC77FE000 0x38800000 0x477FE000 12) 0x48000000.
Proof.
  apply clamp_idempotent; try lia.
  unfold FloatCompressor.valid_config.
  repeat split; try (vm_compute; reflexivity); lia.
Defined.

Lemma dead_zone_code_witness :
  FloatCompressor.compress
    (FloatCompressor.make 0xC77FE000 0x38800000 0x477FE000 12) 0x80000001 = 0
  /\ FloatCompressor.decompress
       (FloatCompressor.make 0xC77FE000 0x38800000 0x477FE000 12)
       (FloatCompressor.compress
          (FloatCompressor.make 0xC77FE000 0x38800000 0x477FE000 12)
          0x80000001) = 0.
Proof.
  apply dead_zone_code; try lia; try (vm_compute; reflexivity).
  unfold FloatCompressor.valid_config.
  repeat split; try (vm_compute; reflexivity); lia.
Defined.

Lemma compress_saturates_witness :
  (0x477FE000 <= 0x7F800000 < 2 ^ 31 ->
     FloatCompressor.compress
       (FloatCompressor.make 0xC77FE000 0x38800000 0x477FE000 12) 0x7F800000
     = FloatCompressor.compress
         (FloatCompressor.make 0xC77FE000 0x38800000 0x477FE000 12) 0x477FE000)
  /\ (2 ^ 31 <= 0xC77FE000 <= 0x7F800000 ->
     FloatCompressor.compress
       (FloatCompressor.make 0xC77FE000 0x38800000 0x477FE000 12) 0x7F800000
     = FloatCompressor.compress
         (FloatCompressor.make 0xC77FE000 0x38800000 0x477FE000 12) 0xC77FE000).
Proof.
  apply compress_saturates; try lia.
  unfold FloatCompressor.valid_config.
  repeat split; try (vm_compute; reflexivity); lia.
Defined.

Lemma roundtrip_clears_low_bits_witness :
  FloatCompressor.decompress
    (FloatCompressor.make 0xC77FE000 0x38800000 0x477FE000 12)
    (FloatCompressor.compress
       (FloatCompressor.make 0xC77FE000 0x38800000 0x477FE000 12) 0xC4353F5C)
  = FloatCompressor.clamp
      (FloatCompressor.make 0xC77FE000 0x38800000 0x477FE000 12) 0xC4353F5C
    - FloatCompressor.clamp
        (FloatCompressor.make 0xC77FE000 0x38800000 0x477FE000 12) 0xC4353F5C
      mod 2 ^ (23 - 12)
  /\ (fle (f32_of_bits 0xC77FE000) (f32_of_bits 0xC4353F5C) = true ->
      fle (f32_of_bits 0xC4353F5C) (f32_of_bits 0x477FE000) = true ->
      fle (f32_of_bits 0x38800000) (SFabs (f32_of_bits 0xC4353F5C)) = true ->
      FloatCompressor.decompress
        (FloatCompressor.make 0xC77FE000 0x38800000 0x477FE000 12)
        (FloatCompressor.compress
           (FloatCompressor.make 0xC77FE000 0x38800000 0x477FE000 12)
           0xC4353F5C)
      = 0xC4353F5C - 0xC4353F5C mod 2 ^ (23 - 12)).
Proof.
  apply roundtrip_clears_low_bits; try lia; try (vm_compute; discriminate).
  unfold FloatCompressor.valid_config.
  repeat split; try (vm_compute; reflexivity); lia.
Defined.

Lemma code_width_witness :
  0 <= FloatCompressor.compress
         (FloatCompressor.make 0xC77FE000 0x38800000 0x477FE000 12) 0xC4353F5C
    < 2 ^ (9 + 12).
Proof.
  apply code_width; try lia; try (vm_compute; discriminate).
  unfold FloatCompressor.valid_config.
  repeat split; try (vm_compute; reflexivity); lia.
Defined.

Lemma compress_decompress_compress_witness :
  FloatCompressor.compress
    (FloatCompressor.make 0xC77FE000 0x38800000 0x477FE000 12)
    (FloatCompressor.decompress
       (FloatCompressor.make 0xC77FE000 0x38800000 0x477FE000 12)
       (FloatCompressor.compress
          (FloatCompressor.make 0xC77FE000 0x38800000 0x477FE000 12)
          0xC4353F5C))
  = FloatCompressor.compress
      (FloatCompressor.make 0xC77FE000 0x38800000 0x477FE000 12) 0xC4353F5C.
Proof.
  apply compress_decompress_compress; try lia; try (vm_compute; reflexivity).
  unfold FloatCompressor.valid_config.
  repeat split; try (vm_compute; reflexivity); lia.
Defined.

Lemma decode_then_encode_witness :
  FloatCompressor.compress
    (FloatCompressor.make 0xC77FE000 0x38800000 0x477FE000 12)
    (FloatCompressor.decompress
       (FloatCompressor.make 0xC77FE000 0x38800000 0x477FE000 12) 5) = 5.
Proof.
  apply decode_then_encode; try lia; try (vm_compute; reflexivity).
  - unfold FloatCompressor.valid_config.
    repeat split; try (vm_compute; reflexivity); lia.
  - split; vm_compute; discriminate.
Defined.

(** ** Further properties of the 18-bit microfloat *)

Section MicroFloatCodes.

(** Bit 17 of the code: the sign bit of the argument, or bit 5 of the
    rebased exponent when that does not fit in five bits. *)
Lemma compress18_sign_field x :
  0 <= x < 2 ^ 32 ->
  (compress18 x / 2 ^ 17) mod 2
  = Z.lor (((expo_of 8 23 x - 0x70) / 2 ^ 5) mod 2) (sign_field 8 23 x).
Proof.
  intros Hx. unfold compress18, shl_u, shr_u, expo_of, sign_field.
  change (2 ^ (8 + 23)) with (2 ^ 31).
  rewrite (u32_small x) by assumption.
  change 0x7ff800 with ((2 ^ 12 - 1) * 2 ^ 11).
  change 0x7f800000 with ((2 ^ 8 - 1) * 2 ^ 23).
  change 0x80000000 with ((2 ^ 1 - 1) * 2 ^ 31).
  rewrite !land_field by lia.
  rewrite !(u32_small (_ * 2 ^ _)) by zlia.
  rewrite !field_shiftr by lia.
  rewrite Z.shiftl_mul_pow2 by lia.
  rewrite Z.shiftr_div_pow2 by lia.
  set (M := (x / 2 ^ 11) mod 2 ^ 12).
  set (E := (x / 2 ^ 23) mod 2 ^ 8).
  set (U := u32 (E - 0x70)).
  replace ((x / 2 ^ 31) mod 2 ^ 1 * 2 ^ 31 / 2 ^ 14)
    with ((x / 2 ^ 31) mod 2 * 2 ^ 17) by zlia.
  replace (u32 (U * 2 ^ 12)) with (U mod 2 ^ 20 * 2 ^ 12)
    by (unfold u32; zlia).
  assert (HM : 0 <= M < 2 ^ 12) by (subst M; zlia).
  rewrite (lor_low_high M _ 12) by lia.
  set (K := U mod 2 ^ 20). set (S := (x / 2 ^ 31) mod 2).
  rewrite <- Z.shiftr_div_pow2, Z.shiftr_lor, !Z.shiftr_div_pow2 by lia.
  replace (S * 2 ^ 17 / 2 ^ 17) with S by zlia.
  change 2 with (2 ^ 1) at 3.
  rewrite <- Z.land_ones, Z.land_lor_distr_l, !Z.land_ones by lia.
  f_equal.
  - subst K U. unfold u32. zlia.
  - subst S. zlia.
Qed.

(** Inside the window the round trip clears the eleven low bits. *)
Lemma roundtrip18_truncates x :
  0 <= x < 2 ^ 32 -> 0x70 <= expo_of 8 23 x <= 0x8F ->
  decompress18 (compress18 x) = x - x mod 2 ^ 11.
Proof.
  intros Hx He. rewrite decompress18_fields, compress18_fields by assumption.
  unfold expo_of, sign_field in *.
  change (2 ^ (8 + 23)) with (2 ^ 31) in *.
  set (M := (x / 2 ^ 11) mod 2 ^ 12).
  set (E := (x / 2 ^ 23) mod 2 ^ 8) in *.
  set (S := (x / 2 ^ 31) mod 2).
  assert (HM : 0 <= M < 2 ^ 12) by (subst M; zlia).
  assert (HS : 0 <= S < 2) by (subst S; zlia).
  assert (Hx' : x - x mod 2 ^ 11 = M * 2 ^ 11 + E * 2 ^ 23 + S * 2 ^ 31)
    by (subst M E S; zlia).
  set (t := M + (E - 0x70) * 2 ^ 12 + S * 2 ^ 17).
  assert (Ht : 0 <= t < 2 ^ 18) by (subst t; lia).
  rewrite (u32_small t) by lia.
  replace (t mod 2 ^ 12) with M by (subst t; zlia).
  replace ((t / 2 ^ 12) mod 2 ^ 5) with (E - 0x70) by (subst t; zlia).
  replace ((t / 2 ^ 17) mod 2 ^ 1) with S by (subst t; zlia).
  lia.
Qed.

(** X16.  Encoding undoes decoding on every 18-bit code. *)
Theorem microfloat_encode_after_decode n :
  0 <= n < 2 ^ 18 -> compress18 (decompress18 n) = n.
Proof.
  intros Hn. destruct (decompress18_in_window n) as (Hy & He & _).
  rewrite compress18_fields by assumption.
  unfold expo_of, sign_field. change (2 ^ (8 + 23)) with (2 ^ 31).
  rewrite decompress18_fields, (u32_small n) by lia.
  zlia.
Qed.

Lemma microfloat_encode_after_decode_witness :
  compress18 (decompress18 0x2A5F3) = 0x2A5F3.
Proof. apply microfloat_encode_after_decode. lia. Defined.

(** X17.  [decompress18] reads the low 18 bits of its argument only. *)
Theorem decompress18_ignores_high_bits n :
  decompress18 n = decompress18 (n mod 2 ^ 18).
Proof.
  rewrite !decompress18_fields. unfold u32. zlia.
Qed.

(** X18.  Inside the exponent window the round trip clears the eleven
    low significand bits and changes nothing else. *)
Theorem microfloat_roundtrip_truncates x :
  0 <= x < 2 ^ 32 -> 0x70 <= expo_of 8 23 x <= 0x8F ->
  decompress18 (compress18 x) = x - x mod 2 ^ 11.
Proof. apply roundtrip18_truncates. Qed.

Lemma microfloat_roundtrip_truncates_witness :
  decompress18 (compress18 0xC4353F5C) = 0xC4353F5C - 0xC4353F5C mod 2 ^ 11.
Proof.
  apply microfloat_roundtrip_truncates;
    [lia | unfold expo_of; split; vm_compute; discriminate].
Defined.

(** X19.  [decompress18] returns normal numbers only: whatever the code,
    the result is finite with an exponent field in the window, of
    magnitude from 2^-15 to below 2^17, never a zero, a subnormal, an
    infinity or a NaN. *)
Theorem decompress18_always_normal n :
  is_finite (f32_of_bits (decompress18 n)) = true /\
  0x38000000 <= mag32 (decompress18 n) <= 0x47FFF800.
Proof.
  destruct (decompress18_in_window n) as (Hy & He & Hm).
  set (y := decompress18 n) in *. clearbody y.
  unfold expo_of, mant_of in *.
  assert (Hg : 0x38000000 <= mag32 y <= 0x47FFF800) by (unfold mag32; zlia).
  split; [|assumption].
  pose proof (f32_of_bits_cases y Hy) as C. cbv zeta in C.
  destruct C as [[G ->] | [[G ->] | [[G ->] | [[G _] | [G _]]]]];
    try reflexivity; exfalso; lia.
Qed.

(** X20.  The round trip of any binary32 pattern: the top twelve
    significand bits are kept, the exponent field is reduced modulo 32
    into the window, and the sign bit is kept unless bit 5 of the rebased
    exponent is set, which sets it. *)
Theorem microfloat_roundtrip_fields x :
  0 <= x < 2 ^ 32 ->
  mant_of 23 (decompress18 (compress18 x))
    = mant_of 23 x - mant_of 23 x mod 2 ^ 11 /\
  expo_of 8 23 (decompress18 (compress18 x))
    = 0x70 + (expo_of 8 23 x - 0x70) mod 2 ^ 5 /\
  sign_field 8 23 (decompress18 (compress18 x))
    = Z.lor (((expo_of 8 23 x - 0x70) / 2 ^ 5) mod 2) (sign_field 8 23 x).
Proof.
  intros Hx.
  destruct (compress18_low_fields x Hx) as (Lm & Le).
  pose proof (compress18_sign_field x Hx) as Ls.
  rewrite decompress18_fields.
  set (c := compress18 x) in *. clearbody c.
  replace (u32 c mod 2 ^ 12) with (c mod 2 ^ 12) by (unfold u32; zlia).
  replace ((u32 c / 2 ^ 12) mod 2 ^ 5) with ((c / 2 ^ 12) mod 2 ^ 5)
    by (unfold u32; zlia).
  replace ((u32 c / 2 ^ 17) mod 2 ^ 1) with ((c / 2 ^ 17) mod 2)
    by (unfold u32; zlia).
  rewrite Lm, Le, Ls. clear Lm Le Ls c.
  set (B := Z.lor _ _).
  assert (HB : 0 <= B < 2).
  { subst B. unfold sign_field.
    set (a := (_ / 2 ^ 5) mod 2). set (b := (_ / 2 ^ (8 + 23)) mod 2).
    assert (Ha : a = 0 \/ a = 1) by (subst a; zlia).
    assert (Hb : b = 0 \/ b = 1) by (subst b; zlia).
    destruct Ha as [-> | ->], Hb as [-> | ->]; cbn; lia. }
  clearbody B.
  unfold mant_of, expo_of, sign_field in *.
  change (2 ^ (8 + 23)) with (2 ^ 31).
  set (E := (x / 2 ^ 23) mod 2 ^ 8) in *.
  repeat split; zlia.
Qed.

Lemma microfloat_roundtrip_fields_witness :
  mant_of 23 (decompress18 (compress18 0x48000000))
    = mant_of 23 0x48000000 - mant_of 23 0x48000000 mod 2 ^ 11 /\
  expo_of 8 23 (decompress18 (compress18 0x48000000))
    = 0x70 + (expo_of 8 23 0x48000000 - 0x70) mod 2 ^ 5 /\
  sign_field 8 23 (decompress18 (compress18 0x48000000))
    = Z.lor (((expo_of 8 23 0x48000000 - 0x70) / 2 ^ 5) mod 2)
            (sign_field 8 23 0x48000000).
Proof. apply microfloat_roundtrip_fields. lia. Defined.

End MicroFloatCodes.

(** ** Further properties of the demonstration program *)

Section Demonstration.

Lemma main_config_valid :
  FloatCompressor.valid_config 0xC77FE000 0x38800000 0x477FE000 12.
Proof.
  unfold FloatCompressor.valid_config.
  repeat split; try (vm_compute; reflexivity); lia.
Qed.

(** X21.  The two round trips [main] prints agree: for every [g] inside
    the range of its quantizer and outside the dead zone, the quantizer
    with 12 bits of precision and the 18-bit microfloat both return [g]
    with its eleven low significand bits cleared. *)
Theorem main_roundtrips_agree g :
  0 <= g < 2 ^ 32 -> 0x38800000 <= mag32 g <= 0x477FE000 ->
  let '(_, _, uncomp, micro) := main_body g in
  uncomp = g - g mod 2 ^ 11 /\ micro = uncomp.
Proof.
  intros Hg Hm. unfold main_body. cbv zeta.
  assert (Hmicro : decompress18 (compress18 g) = g - g mod 2 ^ 11).
  { apply roundtrip18_truncates; [assumption|].
    unfold expo_of, mag32 in *. zlia. }
  rewrite Hmicro.
  assert (Hq : FloatCompressor.decompress
                 (FloatCompressor.make 0xC77FE000 0x38800000 0x477FE000 12)
                 (FloatCompressor.compress
                    (FloatCompressor.make 0xC77FE000 0x38800000 0x477FE000 12)
                    g) = g - g mod 2 ^ 11).
  { pose proof main_config_valid as Hv.
    assert (Hmin : 0 <= 0xC77FE000 < 2 ^ 32) by lia.
    assert (Heps : 0 <= 0x38800000 < 2 ^ 32) by lia.
    assert (Hmax : 0 <= 0x477FE000 < 2 ^ 32) by lia.
    rewrite (roundtrip_make _ _ _ _ Hmin Heps Hmax Hv g)
      by (assumption || (vm_compute; discriminate)).
    rewrite (clamp_fixed _ _ _ _ Hmin Heps Hmax Hv).
    - change (2 ^ (23 - 12)) with (2 ^ 11). zlia.
    - apply clamp_fields_make; assumption.
    - unfold QuantizerForms.clamped, mag32 in *. zlia. }
  rewrite Hq. split; reflexivity.
Qed.

Lemma main_roundtrips_agree_witness :
  let '(_, _, uncomp, micro) := main in
  uncomp = 0xC4353F5C - 0xC4353F5C mod 2 ^ 11 /\ micro = uncomp.
Proof.
  apply main_roundtrips_agree; [lia | unfold mag32; zlia].
Defined.

End Demonstration.
